(** * game-code-normalizer: a shallow embedding of [index.js]

    The two exported operations, [normalizeCode] and [normalizeCodes], are
    embedded over a small model of the JavaScript values they can be handed:
    text is a sequence of UTF-16 code units, records keep their own
    properties in creation order, and a conversion that can raise returns a
    [Completion]. *)

From Stdlib Require Import NArith ZArith Bool Ascii String DecimalString Lia.
From stdpp Require Import base option list.

Set Warnings "-register-all".
Local Open Scope N_scope.

(** ** Text *)

(** A JavaScript string is a finite sequence of UTF-16 code units. *)
Abbreviation CodeUnit := N (only parsing).
Abbreviation JsString := (list N) (only parsing).

(** The text of a literal of the source (all of them are ASCII). *)
Definition js (s : string) : JsString :=
  List.map N_of_ascii (list_ascii_of_string s).
Arguments js : simpl never.

Definition CodeUnit_eqb (a b : CodeUnit) : bool := a =? b.

Fixpoint JsString_eqb (s t : JsString) : bool :=
  match s, t with
  | [], [] => true
  | a :: s', b :: t' => CodeUnit_eqb a b && JsString_eqb s' t'
  | _, _ => false
  end.

(** [WhiteSpace] and [LineTerminator] of ECMAScript: what [trim] strips and
    what the class [\s] matches (TAB, LF, VT, FF, CR, SP, NBSP, the
    space separators of Unicode, LS, PS and the byte order mark). *)
Definition isWhiteSpace (c : CodeUnit) : bool :=
  ((9 <=? c) && (c <=? 13))
  || (c =? 32) || (c =? 160) || (c =? 5760)
  || ((8192 <=? c) && (c <=? 8202))
  || (c =? 8232) || (c =? 8233) || (c =? 8239) || (c =? 8287)
  || (c =? 12288) || (c =? 65279).

Definition HYPHEN : CodeUnit := 45.

Fixpoint dropWhile (p : CodeUnit -> bool) (s : JsString) : JsString :=
  match s with
  | [] => []
  | c :: s' => if p c then dropWhile p s' else s
  end.

Definition trimStart (s : JsString) : JsString := dropWhile isWhiteSpace s.
Definition trimEnd (s : JsString) : JsString :=
  rev (dropWhile isWhiteSpace (rev s)).

(** [String.prototype.trim] *)
Definition trim (s : JsString) : JsString := trimEnd (trimStart s).

(** The class [[\s-]] of the regular expression of step 1. *)
Definition isSeparator (c : CodeUnit) : bool :=
  isWhiteSpace c || (c =? HYPHEN).

(** [s.replace(/[\s-]/g, '')]: every match is replaced by the empty text. *)
Definition removeSeparators (s : JsString) : JsString :=
  List.filter (fun c => negb (isSeparator c)) s.

(** The class [[A-Z0-9]]. *)
Definition isUpperAlnum (c : CodeUnit) : bool :=
  ((65 <=? c) && (c <=? 90)) || ((48 <=? c) && (c <=? 57)).

(** [/[^A-Z0-9]/.test(s)]: without the [u] flag the expression is matched
    against code units. *)
Definition hasInvalidChar (s : JsString) : bool :=
  existsb (fun c => negb (isUpperAlnum c)) s.

Fixpoint startsWith (p s : JsString) : bool :=
  match p, s with
  | [], _ => true
  | a :: p', b :: s' => CodeUnit_eqb a b && startsWith p' s'
  | _ :: _, [] => false
  end.

(** [s.includes(p)]: [p] occurs in [s] at some position. *)
Fixpoint includes (s p : JsString) : bool :=
  startsWith p s
  || match s with
     | [] => false
     | _ :: s' => includes s' p
     end.

Definition isAscii (c : CodeUnit) : bool := c <? 128.

Definition asciiUpper (c : CodeUnit) : CodeUnit :=
  if (97 <=? c) && (c <=? 122) then c - 32 else c.

(** ** Values *)

(** A number value, as far as the two operations can tell numbers apart:
    they test whether it is falsy and take its text.
    - [NumZero negative]: the two zeros, which are falsy and both print
      as 0;
    - [NumNaN], falsy;
    - [NumInfinity negative];
    - [NumFinite text]: any other number, finite and not zero, an integer or
      not, with the text [Number::toString] gives it in radix 10: 42, -1.5,
      1e+21.  The printing of numbers is the host's, not the repository's. *)
Inductive JsNumber :=
| NumZero (negative : bool)
| NumNaN
| NumInfinity (negative : bool)
| NumFinite (text : JsString).

(** The values an input can be: the primitives, arrays without holes (their
    elements, one at every index) and plain records (their own data
    properties, in creation order, with pairwise distinct keys).
    Functions, symbols, accessors and proxies are outside the model, so no
    property of a record is callable. *)
Inductive JsValue :=
| JsUndefined
| JsNull
| JsBoolean (b : bool)
| JsNum (n : JsNumber)
| JsStr (s : JsString)
| JsArray (elems : list JsValue)
| JsObject (props : list (JsString * JsValue)).

Inductive JsError := TypeError.

(** The outcome of an evaluation: a value, or an error raised. *)
Inductive Completion (A : Type) :=
| Normal (a : A)
| Throw (e : JsError).
Arguments Normal {A} a.
Arguments Throw {A} e.

#[global] Instance Completion_ret : MRet Completion := fun A a => Normal a.
#[global] Instance Completion_bind : MBind Completion := fun A B f c =>
  match c with
  | Normal a => f a
  | Throw e => Throw e
  end.

Definition returns {A} (c : Completion A) : Prop := exists a, c = Normal a.

(** [typeof v] *)
Definition typeof (v : JsValue) : JsString :=
  match v with
  | JsUndefined => js "undefined"
  | JsNull => js "object"
  | JsBoolean _ => js "boolean"
  | JsNum _ => js "number"
  | JsStr _ => js "string"
  | JsArray _ => js "object"
  | JsObject _ => js "object"
  end.

Definition isNull (v : JsValue) : bool :=
  match v with JsNull => true | _ => false end.

Definition isUndefined (v : JsValue) : bool :=
  match v with JsUndefined => true | _ => false end.

(** [ToBoolean]: the falsy values are undefined, null, false, the zeros,
    NaN and the empty text. *)
Definition ToBoolean (v : JsValue) : bool :=
  match v with
  | JsUndefined | JsNull => false
  | JsBoolean b => b
  | JsNum (NumZero _) | JsNum NumNaN => false
  | JsNum (NumInfinity _) | JsNum (NumFinite _) => true
  | JsStr s => match s with [] => false | _ :: _ => true end
  | JsArray _ | JsObject _ => true
  end.

(** [a || b] *)
Definition or_else (a b : JsValue) : JsValue :=
  if ToBoolean a then a else b.

(** [Number::toString] in radix 10. *)
Definition Number_toString (n : JsNumber) : JsString :=
  match n with
  | NumZero _ => js "0"
  | NumNaN => js "NaN"
  | NumInfinity false => js "Infinity"
  | NumInfinity true => js "-Infinity"
  | NumFinite text => text
  end.

Fixpoint lookup_prop {V} (k : JsString) (props : list (JsString * V)) : option V :=
  match props with
  | [] => None
  | (k', v) :: rest => if JsString_eqb k' k then Some v else lookup_prop k rest
  end.

Definition hasOwnProperty {V} (k : JsString) (props : list (JsString * V)) : bool :=
  match lookup_prop k props with Some _ => true | None => false end.

(** [String(v)].  A record or an array is first converted to a primitive
    ([OrdinaryToPrimitive], hint string): [toString] is looked up and called
    when callable, then [valueOf].
    - An array inherits [Array.prototype.toString], which joins the texts of
      its elements with commas, undefined and null elements giving the empty
      text.
    - A plain record inherits [Object.prototype.toString], which gives
      [[object Object]].  When it has a [toString] entry of its own, that
      entry is data, not callable, and is skipped; [valueOf] gives back the
      record itself, which is no primitive: no method is left and a
      TypeError is raised, as for [String({ toString: 0 })]. *)
Fixpoint ToString (v : JsValue) : Completion JsString :=
  match v with
  | JsUndefined => Normal (js "undefined")
  | JsNull => Normal (js "null")
  | JsBoolean true => Normal (js "true")
  | JsBoolean false => Normal (js "false")
  | JsNum n => Normal (Number_toString n)
  | JsStr s => Normal s
  | JsArray elems =>
      let element (e : JsValue) : Completion JsString :=
        match e with
        | JsUndefined | JsNull => Normal []
        | _ => ToString e
        end in
      (fix join (l : list JsValue) : Completion JsString :=
         match l with
         | [] => Normal []
         | [e] => element e
         | e :: rest =>
             match element e with
             | Normal a =>
                 match join rest with
                 | Normal b => Normal (a ++ js "," ++ b)
                 | Throw err => Throw err
                 end
             | Throw err => Throw err
             end
         end) elems
  | JsObject props =>
      if hasOwnProperty (js "toString") props
      then Throw TypeError
      else Normal (js "[object Object]")
  end.

(** ** Records and their enumeration order *)

Definition digitValue (c : CodeUnit) : option N :=
  if (48 <=? c) && (c <=? 57) then Some (c - 48) else None.

Fixpoint parseDigits (acc : N) (s : JsString) : option N :=
  match s with
  | [] => Some acc
  | c :: s' =>
      match digitValue c with
      | Some d => parseDigits (acc * 10 + d) s'
      | None => None
      end
  end.

(** A property key is an array index when it is the canonical decimal text
    of an integer between 0 and 2^32 - 2. *)
Definition arrayIndex (k : JsString) : option N :=
  match k with
  | [] => None
  | [c] => digitValue c
  | c :: _ =>
      if c =? 48 then None
      else match parseDigits 0 k with
           | Some n => if n <=? 4294967294 then Some n else None
           | None => None
           end
  end.

(** [CreateDataProperty]: an existing key keeps its place and takes the new
    value, a new key goes to the end. *)
Fixpoint CreateDataProperty {V} (k : JsString) (v : V)
    (props : list (JsString * V)) : list (JsString * V) :=
  match props with
  | [] => [(k, v)]
  | (k', v') :: rest =>
      if JsString_eqb k' k then (k', v) :: rest
      else (k', v') :: CreateDataProperty k v rest
  end.

Fixpoint insertByIndex {V} (x : N * (JsString * V))
    (l : list (N * (JsString * V))) : list (N * (JsString * V)) :=
  match l with
  | [] => [x]
  | y :: l' => if fst x <=? fst y then x :: l else y :: insertByIndex x l'
  end.

Definition indexedProps {V} (props : list (JsString * V))
    : list (N * (JsString * V)) :=
  omap (fun kv => match arrayIndex (fst kv) with
                  | Some i => Some (i, kv)
                  | None => None
                  end) props.

Definition namedProps {V} (props : list (JsString * V)) : list (JsString * V) :=
  List.filter (fun kv => match arrayIndex (fst kv) with
                         | Some _ => false
                         | None => true
                         end) props.

(** [Object.entries(o)] follows [OrdinaryOwnPropertyKeys]: the array-index
    keys in ascending numeric order, then every other key in creation
    order. *)
Definition Object_entries {V} (props : list (JsString * V)) : list (JsString * V) :=
  List.map snd (fold_right insertByIndex [] (indexedProps props))
  ++ namedProps props.

(** One spread [...source] of an object literal, [target] being the
    properties the literal has so far: the entries of [source] are defined
    on it one by one, in enumeration order; a source that is undefined or
    null ([None]) adds nothing. *)
Definition spread {V} (target : list (JsString * V))
    (source : option (list (JsString * V))) : list (JsString * V) :=
  match source with
  | Some props =>
      fold_left (fun t kv => CreateDataProperty (fst kv) (snd kv) t)
                (Object_entries props) target
  | None => target
  end.

(** The number of elements of an array: fewer than 2^32, so a number that
    prints in plain decimal form. *)
Definition numberOfLength (n : nat) : JsNumber :=
  match n with
  | O => NumZero false
  | S _ => NumFinite (js (NilZero.string_of_uint (Nat.to_uint n)))
  end.

(** [o.k] for an array or a plain record [o]: the own property, or
    undefined ([Object.prototype] and [Array.prototype] define no [code]
    and no [meta]). *)
Definition Get (o : JsValue) (k : JsString) : JsValue :=
  match o with
  | JsObject props =>
      match lookup_prop k props with
      | Some v => v
      | None => JsUndefined
      end
  | JsArray elems =>
      if JsString_eqb k (js "length")
      then JsNum (numberOfLength (List.length elems))
      else match arrayIndex k with
           | Some i => nth (N.to_nat i) elems JsUndefined
           | None => JsUndefined
           end
  | _ => JsUndefined
  end.

(** ** Configuration and result *)

Module NormalizeConfig.

(** The optional configuration: a field that is absent, undefined or null is
    [None]. *)
Record t := mk {
  minLength : option Z;
  maxLength : option Z;
  prefixes : option (list (JsString * JsString));
  keywords : option (list (JsString * JsString))
}.

(** The record [{}] a missing [config] argument defaults to. *)
Definition empty : t := mk None None None None.

End NormalizeConfig.

Module NormalizeResult.

Record t := mk {
  normalized : JsString;
  raw : JsString;
  isValidFormat : bool;
  probableType : JsString;
  hints : list JsString;
  status : JsString;
  length : Z;
  createdAt : JsString;
  meta : option JsValue
}.

End NormalizeResult.

Definition DEFAULT_MIN_LENGTH : Z := 4.
Definition DEFAULT_MAX_LENGTH : Z := 16.

Definition DEFAULT_PREFIXES : list (JsString * JsString) :=
  [ (js "IKES", js "class_reroll") ].

Definition DEFAULT_KEYWORDS : list (JsString * JsString) :=
  [ (js "MERR", js "event_reward");
    (js "STAT", js "stat_reset");
    (js "COIN", js "currency");
    (js "GEM", js "currency");
    (js "CASH", js "currency") ].

(** [a ?? b] on an optional field. *)
Definition nullish {A} (a : option A) (b : A) : A :=
  match a with Some x => x | None => b end.

(** The value of a parameter declared with a default: the default stands in
    for a missing (or undefined) argument. *)
Definition defaultParameter {A} (argument : option A) (default : A) : A :=
  match argument with Some x => x | None => default end.

(** The variables the two pattern loops of step 4 update. *)
Record Scan := mkScan {
  scan_hints : list JsString;
  scan_probableType : JsString;
  scan_typeAlreadySet : bool
}.

(** One turn of a pattern loop; [tag] is the text before the pattern in the
    hint pushed. *)
Definition scanPattern (tag normalized : JsString) (st : Scan)
    (entry : JsString * JsString) : Scan :=
  let (pattern, type) := entry in
  if includes normalized pattern then
    let hints := scan_hints st ++ [tag ++ pattern] in
    if negb (scan_typeAlreadySet st)
    then mkScan hints type true
    else mkScan hints (scan_probableType st) (scan_typeAlreadySet st)
  else st.

Definition scanPatterns (tag normalized : JsString)
    (entries : list (JsString * JsString)) (st : Scan) : Scan :=
  fold_left (scanPattern tag normalized) entries st.

(** [l.indexOf(x)]: the first position of [x], or -1. *)
Fixpoint indexOf (x : JsString) (l : list JsString) : Z :=
  match l with
  | [] => -1
  | y :: l' =>
      if JsString_eqb y x then 0
      else let i := indexOf x l' in
           if (i =? -1)%Z then -1 else (i + 1)%Z
  end.

(** The rewrite of the hint of the MERR keyword. *)
Definition rewriteMerr (hints : list JsString) : list JsString :=
  let merrKeywordIndex := indexOf (js "KEYWORD:MERR") hints in
  if negb (merrKeywordIndex =? -1)%Z
  then <[Z.to_nat merrKeywordIndex := js "EVENT:MERRY"]> hints
  else hints.

(** [Array.isArray(v)] *)
Definition isArray (v : JsValue) : bool :=
  match v with JsArray _ => true | _ => false end.

(** ** Concrete runs *)

(** A host whose case tables stop at ASCII: any other text is left as it
    is. *)
Definition asciiOnlyHost (s : JsString) : JsString := s.

(** A clock that always reads the same instant. *)
Definition fixedClock (i : nat) : JsString := js "2025-12-31T12:00:00.000Z".

(** The record [{ code: { toString: 0 } }]. *)
Definition unconvertibleCode : JsValue :=
  JsObject [ (js "code", JsObject [ (js "toString", JsNum (NumZero false)) ]) ].

(** The record [{ code: 'STAT-RESET', meta: { source: 'discord' } }]. *)
Definition statReset : JsValue :=
  JsObject [ (js "code", JsStr (js "STAT-RESET"));
             (js "meta", JsObject [ (js "source", JsStr (js "discord")) ]) ].

(** A configuration with bounds and patterns of its own: it gives the
    default prefix IKES another label and adds a prefix and a keyword. *)
Definition customPatterns : NormalizeConfig.t :=
  NormalizeConfig.mk (Some 2%Z) (Some 20%Z)
    (Some [ (js "IKES", js "special"); (js "XMAS", js "event_reward") ])
    (Some [ (js "BONUS", js "currency") ]).

Section Host.

(** [String.prototype.toUpperCase] follows the Unicode case tables of the
    host, which are no part of this repository.  On text made of ASCII
    code units only it maps a-z to A-Z and nothing else; on any other text
    it is the host's function, taken as a parameter. *)
Variable host_toUpperCase : JsString -> JsString.

Definition toUpperCase (s : JsString) : JsString :=
  if forallb isAscii s then List.map asciiUpper s else host_toUpperCase s.

(** Step 1 of [normalizeCode]:
    [rawCode.trim().replace(/[\s-]/g, '').toUpperCase()]. *)
Definition normalizeText (rawCode : JsString) : JsString :=
  toUpperCase (removeSeparators (trim rawCode)).

(** ** The two operations *)

(** [normalizeCode(input, config)].  [config] is [None] when the argument
    is missing or undefined, and a record of the declared shape otherwise
    (a null argument, of which the source would read a property, is not a
    configuration of the model); [now] is the text that
    [new Date().toISOString()] gives when the result is built. *)
Definition normalizeCode (now : JsString) (input : JsValue)
    (config : option NormalizeConfig.t) : Completion NormalizeResult.t :=
  let config := defaultParameter config NormalizeConfig.empty in
  let isObjectInput :=
    negb (isNull input) && JsString_eqb (typeof input) (js "object") in
  rawCode ← (if isObjectInput
             then ToString (or_else (Get input (js "code")) (JsStr []))
             else ToString (or_else input (JsStr [])));
  let meta := if isObjectInput then Get input (js "meta") else JsUndefined in
  let minLength := nullish (NormalizeConfig.minLength config) DEFAULT_MIN_LENGTH in
  let maxLength := nullish (NormalizeConfig.maxLength config) DEFAULT_MAX_LENGTH in
  let prefixes :=
    spread (spread [] (Some DEFAULT_PREFIXES)) (NormalizeConfig.prefixes config) in
  let keywords :=
    spread (spread [] (Some DEFAULT_KEYWORDS)) (NormalizeConfig.keywords config) in
  let normalized := normalizeText rawCode in
  let hasInvalidChars := hasInvalidChar normalized in
  let hints := if hasInvalidChars then [js "INVALID:CHAR"] else [] in
  let length := Z.of_nat (List.length normalized) in
  let isLengthValid := (minLength <=? length)%Z && (length <=? maxLength)%Z in
  let isValidFormat := negb hasInvalidChars && isLengthValid && (0 <? length)%Z in
  let st := mkScan hints (js "unknown") false in
  let st := scanPatterns (js "PREFIX:") normalized (Object_entries prefixes) st in
  let st := scanPatterns (js "KEYWORD:") normalized (Object_entries keywords) st in
  let hints := rewriteMerr (scan_hints st) in
  mret (NormalizeResult.mk normalized rawCode isValidFormat
          (scan_probableType st) hints (js "unknown") length now
          (if negb (isUndefined meta) then Some meta else None)).

(** [inputs.map(input => normalizeCode(input, config))]: one call after the
    other, each reading the clock when it builds its result; [clock i] is
    the reading of call [i]. *)
Fixpoint mapNormalizeCode (clock : nat -> JsString) (inputs : list JsValue)
    (config : option NormalizeConfig.t)
    : Completion (list NormalizeResult.t) :=
  match inputs with
  | [] => mret []
  | input :: rest =>
      r ← normalizeCode (clock 0%nat) input config;
      rs ← mapNormalizeCode (fun i => clock (S i)) rest config;
      mret (r :: rs)
  end.

(** [normalizeCodes(inputs, config)] *)
Definition normalizeCodes (clock : nat -> JsString) (inputs : JsValue)
    (config : option NormalizeConfig.t)
    : Completion (list NormalizeResult.t) :=
  let config := defaultParameter config NormalizeConfig.empty in
  if negb (isArray inputs) then mret []
  else match inputs with
       | JsArray elems => mapNormalizeCode clock elems (Some config)
       | _ => mret []
       end.

(** ** Notions the properties are stated with *)

(** The entries whose pattern occurs in the normalized text, in the order of
    the loop, and the first of them. *)
Definition matching (normalized : JsString) (entries : list (JsString * JsString))
    : list (JsString * JsString) :=
  List.filter (fun e => includes normalized (fst e)) entries.

Definition firstMatch (normalized : JsString) (entries : list (JsString * JsString))
    : option (JsString * JsString) :=
  List.find (fun e => includes normalized (fst e)) entries.

(** The first entry equal to [x] replaced by [y]. *)
Fixpoint replaceFirst (x y : JsString) (l : list JsString) : list JsString :=
  match l with
  | [] => []
  | h :: t => if JsString_eqb h x then y :: t else h :: replaceFirst x y t
  end.

(** The hint a matching keyword is left with once the MERR hint has been
    rewritten. *)
Definition keywordHint (pattern : JsString) : JsString :=
  if JsString_eqb pattern (js "MERR") then js "EVENT:MERRY"
  else js "KEYWORD:" ++ pattern.

Definition prefixHint (pattern : JsString) : JsString := js "PREFIX:" ++ pattern.

(** The parts of a call the properties name: whether the input is taken as
    a record, the text and the metadata extracted from it, and the bounds
    and pattern lists in force. *)
Definition isObjectInput (input : JsValue) : bool :=
  negb (isNull input) && JsString_eqb (typeof input) (js "object").

Definition rawCodeOf (input : JsValue) : Completion (list N) :=
  if isObjectInput input
  then ToString (or_else (Get input (js "code")) (JsStr []))
  else ToString (or_else input (JsStr [])).

Definition metaOf (input : JsValue) : JsValue :=
  if isObjectInput input then Get input (js "meta") else JsUndefined.

Definition minLengthOf (config : option NormalizeConfig.t) : Z :=
  nullish
    (NormalizeConfig.minLength (defaultParameter config NormalizeConfig.empty))
    DEFAULT_MIN_LENGTH.

Definition maxLengthOf (config : option NormalizeConfig.t) : Z :=
  nullish
    (NormalizeConfig.maxLength (defaultParameter config NormalizeConfig.empty))
    DEFAULT_MAX_LENGTH.

(** The prefix and keyword patterns in the order their loop visits them. *)
Definition prefixEntries (config : option NormalizeConfig.t)
    : list (JsString * JsString) :=
  Object_entries
    (spread (spread [] (Some DEFAULT_PREFIXES))
       (NormalizeConfig.prefixes (defaultParameter config NormalizeConfig.empty))).

Definition keywordEntries (config : option NormalizeConfig.t)
    : list (JsString * JsString) :=
  Object_entries
    (spread (spread [] (Some DEFAULT_KEYWORDS))
       (NormalizeConfig.keywords (defaultParameter config NormalizeConfig.empty))).

Definition invalidHint (normalized : JsString) : list (list N) :=
  if hasInvalidChar normalized then [js "INVALID:CHAR"] else [].

(** [pattern] occurs in [text] as a substring. *)
Definition occursIn (pattern text : JsString) : Prop :=
  exists before after, text = before ++ pattern ++ after.

(** How many entries of [l] are equal to [x]. *)
Definition occurrences (x : JsString) (l : list (list N)) : nat :=
  List.length (List.filter (JsString_eqb x) l).

(** The values [String] returns a text for: every primitive, an array of
    such values, and a record with no [toString] entry of its own. *)
Fixpoint convertible (v : JsValue) : bool :=
  match v with
  | JsArray elems => forallb convertible elems
  | JsObject props => negb (hasOwnProperty (js "toString") props)
  | _ => true
  end.

Definition isPrimitive (v : JsValue) : bool :=
  match v with
  | JsArray _ | JsObject _ => false
  | _ => true
  end.

(** The text an array element contributes to the joined text. *)
Definition elementText (e : JsValue) : Completion (list N) :=
  match e with
  | JsUndefined | JsNull => Normal []
  | _ => ToString e
  end.

(** The value the text of the code is taken from: the [code] property of a
    record or array, the input itself otherwise. *)
Definition codeValue (input : JsValue) : JsValue :=
  if isObjectInput input then Get input (js "code") else input.

(** What a result says about the code itself: every field but the raw
    text, the time stamp and the metadata. *)
Definition verdict (r : NormalizeResult.t)
    : list N * bool * list N * list (list N) * Z :=
  (NormalizeResult.normalized r, NormalizeResult.isValidFormat r,
   NormalizeResult.probableType r, NormalizeResult.hints r,
   NormalizeResult.length r).

(** The ASCII small letters. *)
Definition isLowerAscii (c : CodeUnit) : bool := (97 <=? c) && (c <=? 122).

(** An entry with the label [source] gives its key, when it gives one. *)
Definition overrideWith (source : list (JsString * JsString))
    (entry : JsString * JsString) : list N * list N :=
  (fst entry,
   match lookup_prop (fst entry) source with
   | Some label => label
   | None => snd entry
   end).

(** The label an optional mapping gives a key. *)
Definition customLabel (custom : option (list (JsString * JsString)))
    (k : JsString) : option (list N) :=
  match custom with
  | Some props => lookup_prop k props
  | None => None
  end.

(** A mapping whose keys are pairwise distinct and none of which is an
    array index: its enumeration order is the order it was written in. *)
Definition plainlyKeyed (props : list (JsString * JsString)) : Prop :=
  List.NoDup (List.map fst props)
  /\ forall e, In e props -> arrayIndex (fst e) = None.

(** ** Text lemmas *)

Lemma JsString_eqb_eq (s t : JsString) : JsString_eqb s t = true <-> s = t.
Proof.
  revert t; induction s as [|a s IH]; intros [|b t]; simpl; split;
    try congruence; try discriminate.
  - rewrite andb_true_iff. unfold CodeUnit_eqb. rewrite N.eqb_eq, IH.
    intros [-> ->]; reflexivity.
  - intros E; injection E as -> ->.
    rewrite andb_true_iff. unfold CodeUnit_eqb. rewrite N.eqb_eq, IH. auto.
Qed.

Lemma JsString_eqb_refl (s : JsString) : JsString_eqb s s = true.
Proof. apply JsString_eqb_eq; reflexivity. Qed.

Lemma JsString_eqb_neq (s t : JsString) : JsString_eqb s t = false <-> s <> t.
Proof.
  rewrite <- JsString_eqb_eq. destruct (JsString_eqb s t); split; congruence.
Qed.

Lemma startsWith_spec (p s : JsString) :
  startsWith p s = true <-> exists r, s = p ++ r.
Proof.
  revert s; induction p as [|a p IH]; intros s; simpl.
  - split; [intros _; exists s; reflexivity | reflexivity].
  - destruct s as [|b s].
    + split; [discriminate | intros [r E]; discriminate].
    + rewrite andb_true_iff. unfold CodeUnit_eqb. rewrite N.eqb_eq, IH. split.
      * intros [-> [r ->]]; exists r; reflexivity.
      * intros [r E]; injection E as -> ->; split; [reflexivity | eauto].
Qed.

(** [includes] is the occurrence of the pattern as a substring. *)
Lemma includes_spec (s p : JsString) :
  includes s p = true <-> exists l r, s = l ++ p ++ r.
Proof.
  induction s as [|c s IH]; simpl.
  - rewrite orb_false_r, startsWith_spec. split.
    + intros [r E]; exists [], r; exact E.
    + intros [l [r E]]. destruct l; [exists r; exact E | discriminate].
  - rewrite orb_true_iff, startsWith_spec, IH. split.
    + intros [[r E] | [l [r E]]].
      * exists [], r; exact E.
      * exists (c :: l), r; rewrite E; reflexivity.
    + intros [l [r E]]. destruct l as [|d l].
      * left; exists r; exact E.
      * injection E as -> ->. right; exists l, r; reflexivity.
Qed.

Lemma hasInvalidChar_false (s : JsString) :
  hasInvalidChar s = false <-> Forall (fun c => isUpperAlnum c = true) s.
Proof.
  unfold hasInvalidChar. induction s as [|c s IH]; simpl.
  - split; [constructor | reflexivity].
  - rewrite orb_false_iff, IH, negb_false_iff. split.
    + intros [? ?]; constructor; assumption.
    + intros H; inversion H; subst; auto.
Qed.

Lemma hasInvalidChar_true (s : JsString) :
  hasInvalidChar s = true <-> Exists (fun c => isUpperAlnum c = false) s.
Proof.
  unfold hasInvalidChar. induction s as [|c s IH]; simpl.
  - split; [discriminate | intros H; inversion H].
  - rewrite orb_true_iff, IH, negb_true_iff. split.
    + intros [? | ?]; [left | right]; assumption.
    + intros H; inversion H; subst; auto.
Qed.

(** ** The pattern loops *)

Lemma scanPatterns_cons tag n e es st :
  scanPatterns tag n (e :: es) st = scanPatterns tag n es (scanPattern tag n st e).
Proof. reflexivity. Qed.

Lemma scanPatterns_hints tag n es st :
  scan_hints (scanPatterns tag n es st)
  = scan_hints st ++ List.map (fun e => tag ++ fst e) (matching n es).
Proof.
  revert st; induction es as [|[p t] es IH]; intros st.
  - simpl. rewrite app_nil_r. reflexivity.
  - rewrite scanPatterns_cons, IH. unfold scanPattern, matching. simpl.
    destruct (includes n p); simpl.
    + destruct (scan_typeAlreadySet st); simpl; rewrite <- app_assoc; reflexivity.
    + reflexivity.
Qed.

Lemma scanPatterns_typeAlreadySet tag n es st :
  scan_typeAlreadySet (scanPatterns tag n es st)
  = scan_typeAlreadySet st || existsb (fun e => includes n (fst e)) es.
Proof.
  revert st; induction es as [|[p t] es IH]; intros st.
  - simpl. rewrite orb_false_r. reflexivity.
  - rewrite scanPatterns_cons, IH. unfold scanPattern. simpl.
    destruct (includes n p); simpl.
    + destruct (scan_typeAlreadySet st); reflexivity.
    + reflexivity.
Qed.

Lemma scanPatterns_probableType tag n es st :
  scan_probableType (scanPatterns tag n es st)
  = if scan_typeAlreadySet st then scan_probableType st
    else match firstMatch n es with
         | Some e => snd e
         | None => scan_probableType st
         end.
Proof.
  revert st; induction es as [|[p t] es IH]; intros st.
  - simpl. destruct (scan_typeAlreadySet st); reflexivity.
  - rewrite scanPatterns_cons, IH. unfold scanPattern, firstMatch. simpl.
    destruct (includes n p); simpl.
    + destruct (scan_typeAlreadySet st); reflexivity.
    + reflexivity.
Qed.

Lemma firstMatch_None n es :
  firstMatch n es = None <-> existsb (fun e => includes n (fst e)) es = false.
Proof.
  unfold firstMatch. induction es as [|e es IH]; simpl.
  - split; reflexivity.
  - destruct (includes n (fst e)); simpl; [split; discriminate | exact IH].
Qed.

Lemma firstMatch_Some n es e :
  firstMatch n es = Some e ->
  exists before after,
    es = before ++ e :: after
    /\ includes n (fst e) = true
    /\ Forall (fun e' => includes n (fst e') = false) before.
Proof.
  unfold firstMatch. induction es as [|e' es IH]; simpl; [discriminate|].
  destruct (includes n (fst e')) eqn:E.
  - intros [= <-]. exists [], es. repeat split; [exact E | constructor].
  - intros H. destruct (IH H) as (b & a & -> & Hm & Hb).
    exists (e' :: b), a. repeat split; [exact Hm | constructor; assumption].
Qed.

(** ** The rewrite of the MERR hint *)

Lemma indexOf_lower x l : (-1 <= indexOf x l)%Z.
Proof.
  induction l as [|h t IH]; simpl; [lia|].
  destruct (JsString_eqb h x); [lia|].
  destruct (indexOf x t =? -1)%Z eqn:E; lia.
Qed.

Lemma indexOf_replaceFirst x y l :
  (if negb (indexOf x l =? -1)%Z
   then <[Z.to_nat (indexOf x l) := y]> l else l)
  = replaceFirst x y l.
Proof.
  induction l as [|h t IH]; simpl; [reflexivity|].
  destruct (JsString_eqb h x); simpl; [reflexivity|].
  pose proof (indexOf_lower x t) as Hlow.
  destruct (indexOf x t =? -1)%Z eqn:E; simpl in *.
  - rewrite <- IH. reflexivity.
  - apply Z.eqb_neq in E.
    destruct (indexOf x t + 1 =? -1)%Z eqn:E'; [apply Z.eqb_eq in E'; lia|].
    simpl. replace (Z.to_nat (indexOf x t + 1)) with (S (Z.to_nat (indexOf x t))) by lia.
    simpl. rewrite <- IH. reflexivity.
Qed.

Lemma rewriteMerr_replaceFirst hints :
  rewriteMerr hints = replaceFirst (js "KEYWORD:MERR") (js "EVENT:MERRY") hints.
Proof. unfold rewriteMerr. apply indexOf_replaceFirst. Qed.

Lemma replaceFirst_app_absent x y a b :
  ~ In x a -> replaceFirst x y (a ++ b) = a ++ replaceFirst x y b.
Proof.
  induction a as [|h t IH]; simpl; [reflexivity|]. intros H.
  destruct (JsString_eqb h x) eqn:E.
  - apply JsString_eqb_eq in E. tauto.
  - rewrite IH; tauto.
Qed.

(** ** Enumeration order and merged patterns *)

Lemma insertByIndex_perm {V} (x : N * (JsString * V)) l :
  Permutation (insertByIndex x l) (x :: l).
Proof.
  induction l as [|y l IH]; simpl; [reflexivity|].
  destruct (fst x <=? fst y); [reflexivity|].
  rewrite IH. apply perm_swap.
Qed.

Lemma sortByIndex_perm {V} (l : list (N * (JsString * V))) :
  Permutation (fold_right insertByIndex [] l) l.
Proof.
  induction l as [|x l IH]; simpl; [reflexivity|].
  rewrite insertByIndex_perm, IH. reflexivity.
Qed.

Lemma indexed_named_perm {V} (props : list (JsString * V)) :
  Permutation (List.map snd (indexedProps props) ++ namedProps props) props.
Proof.
  unfold indexedProps, namedProps.
  induction props as [|kv props IH]; simpl; [reflexivity|].
  destruct (arrayIndex (fst kv)); simpl.
  - apply perm_skip, IH.
  - symmetry. apply Permutation_cons_app. symmetry. exact IH.
Qed.

(** [Object.entries] gives every own property once. *)
Lemma Object_entries_perm {V} (props : list (JsString * V)) :
  Permutation (Object_entries props) props.
Proof.
  unfold Object_entries.
  rewrite (Permutation_map snd (sortByIndex_perm (indexedProps props))).
  apply indexed_named_perm.
Qed.

Lemma CreateDataProperty_keys {V} k (v : V) props :
  List.map fst (CreateDataProperty k v props)
  = if existsb (fun k' => JsString_eqb k' k) (List.map fst props)
    then List.map fst props
    else List.map fst props ++ [k].
Proof.
  induction props as [|[k' v'] props IH]; simpl; [reflexivity|].
  destruct (JsString_eqb k' k); simpl; [reflexivity|].
  rewrite IH. destruct (existsb _ _); reflexivity.
Qed.

Lemma CreateDataProperty_NoDup {V} k (v : V) props :
  List.NoDup (List.map fst props) ->
  List.NoDup (List.map fst (CreateDataProperty k v props)).
Proof.
  intros H. rewrite CreateDataProperty_keys.
  destruct (existsb _ _) eqn:E; [exact H|].
  apply NoDup_ListNoDup. apply NoDup_ListNoDup in H.
  apply NoDup_app. split; [exact H|]. split.
  - intros x Hx Hk. apply list_elem_of_singleton in Hk; subst x.
    apply list_elem_of_In in Hx.
    assert (existsb (fun k' => JsString_eqb k' k) (List.map fst props) = true) as C.
    { apply existsb_exists. exists k. split; [exact Hx | apply JsString_eqb_refl]. }
    congruence.
  - apply NoDup_singleton.
Qed.

Lemma spread_NoDup {V} (target : list (JsString * V)) source :
  List.NoDup (List.map fst target) ->
  List.NoDup (List.map fst (spread target source)).
Proof.
  destruct source as [props|]; [|tauto]. unfold spread.
  generalize (Object_entries props) as es.
  intros es; revert target; induction es as [|e es IH]; intros target H; simpl.
  - exact H.
  - apply IH, CreateDataProperty_NoDup, H.
Qed.

(** The patterns a loop goes through are pairwise distinct. *)
Lemma merged_entries_NoDup {V} (defaults custom : option (list (JsString * V))) :
  List.NoDup (List.map fst (Object_entries (spread (spread [] defaults) custom))).
Proof.
  eapply Permutation_NoDup.
  - apply Permutation_map. symmetry. apply Object_entries_perm.
  - apply spread_NoDup, spread_NoDup. constructor.
Qed.

Lemma matching_NoDup n es :
  List.NoDup (List.map fst es) -> List.NoDup (List.map fst (matching n es)).
Proof.
  unfold matching. induction es as [|e es IH]; simpl; intros H; [exact H|].
  inversion H as [|? ? Hin Hnd]; subst.
  destruct (includes n (fst e)); simpl; [|auto].
  constructor; [|auto].
  intros C. apply Hin. apply in_map_iff in C as (e' & Ee & Hf).
  apply filter_In in Hf as [Hf _]. apply in_map_iff. eauto.
Qed.

Lemma keywordHint_other ks :
  ~ In (js "MERR") (List.map fst ks) ->
  List.map (fun e : JsString * JsString => js "KEYWORD:" ++ fst e) ks
  = List.map (fun e => keywordHint (fst e)) ks.
Proof.
  induction ks as [|e ks IH]; cbn [List.map In]; [reflexivity|]. intros H.
  f_equal; [|apply IH; tauto]. unfold keywordHint.
  destruct (JsString_eqb (fst e) (js "MERR")) eqn:E; [|reflexivity].
  apply JsString_eqb_eq in E. tauto.
Qed.

Lemma replaceFirst_keywords (ks : list (JsString * JsString)) :
  List.NoDup (List.map fst ks) ->
  replaceFirst (js "KEYWORD:MERR") (js "EVENT:MERRY")
    (List.map (fun e => js "KEYWORD:" ++ fst e) ks)
  = List.map (fun e => keywordHint (fst e)) ks.
Proof.
  induction ks as [|e ks IH]; cbn [List.map replaceFirst]; [reflexivity|].
  intros H. inversion H as [|? ? Hin Hnd]; subst.
  change (keywordHint (fst e))
    with (if JsString_eqb (fst e) (js "MERR") then js "EVENT:MERRY"
          else js "KEYWORD:" ++ fst e).
  destruct (JsString_eqb (fst e) (js "MERR")) eqn:E.
  - apply JsString_eqb_eq in E. rewrite E.
    change (js "KEYWORD:" ++ js "MERR") with (js "KEYWORD:MERR").
    rewrite JsString_eqb_refl. f_equal.
    apply keywordHint_other. rewrite <- E. exact Hin.
  - destruct (JsString_eqb (js "KEYWORD:" ++ fst e) (js "KEYWORD:MERR")) eqn:E'.
    + apply JsString_eqb_eq in E'.
      change (js "KEYWORD:MERR") with (js "KEYWORD:" ++ js "MERR") in E'.
      apply app_inv_head in E'. apply JsString_eqb_neq in E. tauto.
    + f_equal. apply IH, Hnd.
Qed.

(** ** What a call returns *)

Lemma normalizeCode_unfold now input config :
  normalizeCode now input config
  = (rawCode ← rawCodeOf input;
     let normalized := normalizeText rawCode in
     let length := Z.of_nat (List.length normalized) in
     let st := scanPatterns (js "KEYWORD:") normalized (keywordEntries config)
                 (scanPatterns (js "PREFIX:") normalized (prefixEntries config)
                    (mkScan (invalidHint normalized) (js "unknown") false)) in
     mret (NormalizeResult.mk normalized rawCode
             (negb (hasInvalidChar normalized)
              && ((minLengthOf config <=? length)%Z && (length <=? maxLengthOf config)%Z)
              && (0 <? length)%Z)
             (scan_probableType st) (rewriteMerr (scan_hints st))
             (js "unknown") length now
             (if negb (isUndefined (metaOf input)) then Some (metaOf input) else None))).
Proof. reflexivity. Qed.

(** A call returns exactly when the text of the input can be taken. *)
Lemma normalizeCode_returns now input config :
  returns (normalizeCode now input config) <-> returns (rawCodeOf input).
Proof.
  rewrite normalizeCode_unfold. unfold returns.
  destruct (rawCodeOf input) as [rawCode|e]; simpl; split.
  - intros _; eauto.
  - intros _; eauto.
  - intros [a H]; discriminate.
  - intros [a H]; discriminate.
Qed.

Lemma invalidHint_no_keyword n : ~ In (js "KEYWORD:MERR") (invalidHint n).
Proof.
  unfold invalidHint. destruct (hasInvalidChar n); simpl; [|tauto].
  intros [H|[]]. discriminate H.
Qed.

Lemma prefixHints_no_keyword (es : list (JsString * JsString)) :
  ~ In (js "KEYWORD:MERR") (List.map (fun e => js "PREFIX:" ++ fst e) es).
Proof.
  intros H. apply in_map_iff in H as (e & E & _). discriminate E.
Qed.

(** The hints of a result, in full. *)
Lemma hints_shape now input config r :
  normalizeCode now input config = Normal r ->
  NormalizeResult.hints r
  = invalidHint (NormalizeResult.normalized r)
    ++ List.map (fun e => prefixHint (fst e))
         (matching (NormalizeResult.normalized r) (prefixEntries config))
    ++ List.map (fun e => keywordHint (fst e))
         (matching (NormalizeResult.normalized r) (keywordEntries config)).
Proof.
  rewrite normalizeCode_unfold.
  destruct (rawCodeOf input) as [rawCode|e]; [|discriminate].
  intros [= <-]. cbn [NormalizeResult.hints NormalizeResult.normalized].
  rewrite rewriteMerr_replaceFirst, !scanPatterns_hints.
  cbn [scan_hints]. rewrite <- app_assoc, app_assoc.
  rewrite replaceFirst_app_absent.
  - rewrite replaceFirst_keywords.
    + rewrite <- app_assoc. reflexivity.
    + apply matching_NoDup, merged_entries_NoDup.
  - intros H. apply in_app_or in H as [H|H].
    + exact (invalidHint_no_keyword _ H).
    + exact (prefixHints_no_keyword _ H).
Qed.

(** The label of a result: the first matching prefix, else the first
    matching keyword, else unknown. *)
Lemma probableType_shape now input config r :
  normalizeCode now input config = Normal r ->
  NormalizeResult.probableType r
  = match firstMatch (NormalizeResult.normalized r) (prefixEntries config) with
    | Some e => snd e
    | None =>
        match firstMatch (NormalizeResult.normalized r) (keywordEntries config) with
        | Some e => snd e
        | None => js "unknown"
        end
    end.
Proof.
  rewrite normalizeCode_unfold.
  destruct (rawCodeOf input) as [rawCode|e]; [|discriminate].
  intros [= <-]. cbn [NormalizeResult.probableType NormalizeResult.normalized].
  rewrite scanPatterns_probableType, scanPatterns_typeAlreadySet.
  rewrite scanPatterns_probableType. cbn [scan_typeAlreadySet scan_probableType].
  rewrite orb_false_l.
  destruct (firstMatch (normalizeText rawCode) (prefixEntries config)) as [e|] eqn:E.
  - assert (existsb (fun e => includes (normalizeText rawCode) (fst e))
              (prefixEntries config) = true) as ->; [|reflexivity].
    destruct (existsb _ _) eqn:X; [reflexivity|].
    apply firstMatch_None in X. congruence.
  - apply firstMatch_None in E. rewrite E. reflexivity.
Qed.

Lemma includes_occursIn (s p : JsString) :
  includes s p = true <-> occursIn p s.
Proof. apply includes_spec. Qed.

Lemma not_includes_occursIn (s p : JsString) :
  includes s p = false <-> ~ occursIn p s.
Proof.
  rewrite <- includes_occursIn. destruct (includes s p); split; congruence.
Qed.

Lemma In_matching n es e :
  In e (matching n es) <-> In e es /\ occursIn (fst e) n.
Proof.
  unfold matching. rewrite filter_In, includes_occursIn. reflexivity.
Qed.

(** The hints as the two loops leave them, before the MERR hint is
    rewritten. *)
Lemma hints_recorded now input config r :
  normalizeCode now input config = Normal r ->
  NormalizeResult.hints r
  = rewriteMerr
      (invalidHint (NormalizeResult.normalized r)
       ++ List.map (fun e => js "PREFIX:" ++ fst e)
            (matching (NormalizeResult.normalized r) (prefixEntries config))
       ++ List.map (fun e => js "KEYWORD:" ++ fst e)
            (matching (NormalizeResult.normalized r) (keywordEntries config))).
Proof.
  rewrite normalizeCode_unfold.
  destruct (rawCodeOf input) as [rawCode|e]; [|discriminate].
  intros [= <-]. cbn [NormalizeResult.hints NormalizeResult.normalized].
  rewrite !scanPatterns_hints. cbn [scan_hints].
  rewrite <- app_assoc. reflexivity.
Qed.

Lemma validity_shape now input config r :
  normalizeCode now input config = Normal r ->
  NormalizeResult.length r = Z.of_nat (List.length (NormalizeResult.normalized r))
  /\ NormalizeResult.isValidFormat r
     = negb (hasInvalidChar (NormalizeResult.normalized r))
       && ((minLengthOf config <=? NormalizeResult.length r)%Z
           && (NormalizeResult.length r <=? maxLengthOf config)%Z)
       && (0 <? NormalizeResult.length r)%Z.
Proof.
  rewrite normalizeCode_unfold.
  destruct (rawCodeOf input) as [rawCode|e]; [|discriminate].
  intros [= <-]. split; reflexivity.
Qed.

Lemma occurrences_app x a b :
  occurrences x (a ++ b) = (occurrences x a + occurrences x b)%nat.
Proof. unfold occurrences. rewrite List.filter_app, length_app. reflexivity. Qed.

Lemma occurrences_map_none {A} x (f : A -> list N) (l : list A) :
  (forall a, JsString_eqb x (f a) = false) ->
  occurrences x (List.map f l) = 0%nat.
Proof.
  intros H. unfold occurrences. induction l as [|a l IH]; cbn [List.map List.filter].
  - reflexivity.
  - rewrite H. exact IH.
Qed.

Lemma invalid_is_no_prefixHint p :
  JsString_eqb (js "INVALID:CHAR") (prefixHint p) = false.
Proof. reflexivity. Qed.

Lemma invalid_is_no_keywordHint k :
  JsString_eqb (js "INVALID:CHAR") (keywordHint k) = false.
Proof.
  unfold keywordHint. destruct (JsString_eqb k (js "MERR")); reflexivity.
Qed.

(** ** Validity and the INVALID:CHAR hint *)

(** C1: [isValidFormat] is true exactly when the normalized text has no
    character outside A-Z and 0-9, its length lies between the minimum and
    the maximum in force, and it is not empty; and when at least one
    character is outside A-Z and 0-9 the hint INVALID:CHAR is in [hints]
    exactly once. *)
Theorem isValidFormat_iff_and_invalid_hint_once now input config r :
  normalizeCode now input config = Normal r ->
  let normalized := NormalizeResult.normalized r in
  let length := Z.of_nat (List.length normalized) in
  (NormalizeResult.isValidFormat r = true
   <-> Forall (fun c => isUpperAlnum c = true) normalized
       /\ (minLengthOf config <= length <= maxLengthOf config)%Z
       /\ (0 < length)%Z)
  /\ (Exists (fun c => isUpperAlnum c = false) normalized ->
      occurrences (js "INVALID:CHAR") (NormalizeResult.hints r) = 1%nat).
Proof.
  intros H normalized length. split.
  - destruct (validity_shape _ _ _ _ H) as [Hlen ->]. rewrite Hlen.
    fold normalized. fold length.
    rewrite !andb_true_iff, negb_true_iff, hasInvalidChar_false.
    rewrite !Z.leb_le, Z.ltb_lt. tauto.
  - intros Hex. apply hasInvalidChar_true in Hex.
    rewrite (hints_shape _ _ _ _ H). fold normalized.
    rewrite !occurrences_app.
    rewrite (occurrences_map_none _ (fun e => prefixHint (fst e)))
      by (intros; apply invalid_is_no_prefixHint).
    rewrite (occurrences_map_none _ (fun e => keywordHint (fst e)))
      by (intros; apply invalid_is_no_keywordHint).
    unfold invalidHint. rewrite Hex. reflexivity.
Qed.

(** ** Classification *)

Lemma firstMatch_split n es e :
  firstMatch n es = Some e ->
  exists before after,
    es = before ++ e :: after
    /\ occursIn (fst e) n
    /\ (forall p, In p before -> ~ occursIn (fst p) n).
Proof.
  intros H. apply firstMatch_Some in H as (b & a & -> & Hm & Hb).
  exists b, a. split; [reflexivity|]. split; [apply includes_occursIn, Hm|].
  intros p Hp. apply not_includes_occursIn.
  rewrite List.Forall_forall in Hb. apply Hb, Hp.
Qed.

Lemma firstMatch_exists n es p :
  In p es -> occursIn (fst p) n -> exists e, firstMatch n es = Some e.
Proof.
  intros Hin Hocc. destruct (firstMatch n es) as [e|] eqn:E; [eauto|].
  apply firstMatch_None in E.
  assert (existsb (fun e => includes n (fst e)) es = true) as C.
  { apply existsb_exists. exists p. split; [exact Hin | apply includes_occursIn, Hocc]. }
  congruence.
Qed.

(** C2: when some prefix pattern occurs in the normalized text,
    [probableType] is the label of the first such pattern in the order the
    prefixes are gone through, whatever matches later; every matching
    prefix has pushed its PREFIX: hint and every matching keyword its
    KEYWORD: hint, and in the result each matching prefix has its PREFIX:
    hint and each matching keyword its KEYWORD: hint (EVENT:MERRY for
    MERR). *)
Theorem first_prefix_sets_probableType now input config r :
  normalizeCode now input config = Normal r ->
  let normalized := NormalizeResult.normalized r in
  (exists p, In p (prefixEntries config) /\ occursIn (fst p) normalized) ->
  (exists before first after,
      prefixEntries config = before ++ first :: after
      /\ occursIn (fst first) normalized
      /\ (forall p, In p before -> ~ occursIn (fst p) normalized)
      /\ NormalizeResult.probableType r = snd first)
  /\ (exists recorded,
        NormalizeResult.hints r = rewriteMerr recorded
        /\ (forall p, In p (prefixEntries config) -> occursIn (fst p) normalized ->
            In (js "PREFIX:" ++ fst p) recorded)
        /\ (forall k, In k (keywordEntries config) -> occursIn (fst k) normalized ->
            In (js "KEYWORD:" ++ fst k) recorded))
  /\ (forall p, In p (prefixEntries config) -> occursIn (fst p) normalized ->
      In (js "PREFIX:" ++ fst p) (NormalizeResult.hints r))
  /\ (forall k, In k (keywordEntries config) -> occursIn (fst k) normalized ->
      In (if JsString_eqb (fst k) (js "MERR") then js "EVENT:MERRY"
          else js "KEYWORD:" ++ fst k)
         (NormalizeResult.hints r)).
Proof.
  intros H normalized (p & Hp & Hocc).
  destruct (firstMatch_exists _ _ _ Hp Hocc) as [first Hfirst].
  split; [|split; [|split]].
  - destruct (firstMatch_split _ _ _ Hfirst) as (b & a & Hsplit & Hm & Hb).
    exists b, first, a. repeat split; try assumption.
    rewrite (probableType_shape _ _ _ _ H). fold normalized.
    rewrite Hfirst. reflexivity.
  - eexists. split; [apply (hints_recorded _ _ _ _ H)|]. fold normalized. split.
    + intros q Hq Hqo. apply in_or_app; right. apply in_or_app; left.
      apply in_map_iff. exists q. split; [reflexivity | apply In_matching; auto].
    + intros k Hk Hko. apply in_or_app; right. apply in_or_app; right.
      apply in_map_iff. exists k. split; [reflexivity | apply In_matching; auto].
  - intros q Hq Hqo. rewrite (hints_shape _ _ _ _ H). fold normalized.
    apply in_or_app; right. apply in_or_app; left.
    apply in_map_iff. exists q. split; [reflexivity | apply In_matching; auto].
  - intros k Hk Hko. rewrite (hints_shape _ _ _ _ H). fold normalized.
    apply in_or_app; right. apply in_or_app; right.
    apply in_map_iff. exists k. split; [reflexivity | apply In_matching; auto].
Qed.

(** C7: a [probableType] other than unknown is the label of a pattern that
    occurs in the normalized text, and [hints] has the entry of that
    pattern: its PREFIX: hint for a prefix, its KEYWORD: hint for a
    keyword, EVENT:MERRY for the keyword MERR. *)
Theorem known_probableType_has_hint now input config r :
  normalizeCode now input config = Normal r ->
  NormalizeResult.probableType r <> js "unknown" ->
  exists pattern,
    occursIn pattern (NormalizeResult.normalized r)
    /\ ((In (pattern, NormalizeResult.probableType r) (prefixEntries config)
         /\ In (js "PREFIX:" ++ pattern) (NormalizeResult.hints r))
        \/ (In (pattern, NormalizeResult.probableType r) (keywordEntries config)
            /\ pattern <> js "MERR"
            /\ In (js "KEYWORD:" ++ pattern) (NormalizeResult.hints r))
        \/ (In (pattern, NormalizeResult.probableType r) (keywordEntries config)
            /\ pattern = js "MERR"
            /\ In (js "EVENT:MERRY") (NormalizeResult.hints r))).
Proof.
  intros H Hknown. rewrite (probableType_shape _ _ _ _ H) in *.
  rewrite (hints_shape _ _ _ _ H).
  set (n := NormalizeResult.normalized r) in *.
  destruct (firstMatch n (prefixEntries config)) as [[p t]|] eqn:EP.
  - destruct (firstMatch_split _ _ _ EP) as (b & a & Hsplit & Hm & _).
    assert (In (p, t) (prefixEntries config)) as Hin
      by (rewrite Hsplit; apply in_or_app; right; left; reflexivity).
    exists p. split; [exact Hm|]. left. split; [exact Hin|].
    apply in_or_app; right. apply in_or_app; left.
    apply in_map_iff. exists (p, t). split; [reflexivity | apply In_matching; auto].
  - destruct (firstMatch n (keywordEntries config)) as [[k t]|] eqn:EK;
      [|contradiction].
    destruct (firstMatch_split _ _ _ EK) as (b & a & Hsplit & Hm & _).
    assert (In (k, t) (keywordEntries config)) as Hin
      by (rewrite Hsplit; apply in_or_app; right; left; reflexivity).
    assert (In (keywordHint k)
              (List.map (fun e => keywordHint (fst e)) (matching n (keywordEntries config))))
      as Hhint.
    { apply in_map_iff. exists (k, t). split; [reflexivity | apply In_matching; auto]. }
    exists k. split; [exact Hm|]. right.
    unfold keywordHint in Hhint at 1.
    destruct (JsString_eqb k (js "MERR")) eqn:E.
    + right. apply JsString_eqb_eq in E. repeat split; try assumption.
      apply in_or_app; right. apply in_or_app; right. exact Hhint.
    + left. apply JsString_eqb_neq in E. repeat split; try assumption.
      apply in_or_app; right. apply in_or_app; right. exact Hhint.
Qed.

(** C10: the hints come in a fixed order: INVALID:CHAR first when the
    normalized text has an invalid character, then the PREFIX: hints of the
    matching prefixes in the order the prefixes are gone through, then the
    hints of the matching keywords (KEYWORD:, or EVENT:MERRY for MERR) in
    the order the keywords are gone through. *)
Theorem hints_order now input config r :
  normalizeCode now input config = Normal r ->
  let normalized := NormalizeResult.normalized r in
  NormalizeResult.hints r
  = (if hasInvalidChar normalized then [js "INVALID:CHAR"] else [])
    ++ List.map (fun e => js "PREFIX:" ++ fst e)
         (List.filter (fun e => includes normalized (fst e)) (prefixEntries config))
    ++ List.map (fun e => if JsString_eqb (fst e) (js "MERR")
                          then js "EVENT:MERRY"
                          else js "KEYWORD:" ++ fst e)
         (List.filter (fun e => includes normalized (fst e)) (keywordEntries config)).
Proof. intros H. exact (hints_shape _ _ _ _ H). Qed.

(** C3: the text Merristmas, with no configuration, gives MERRISTMAS, a
    valid format, the label event_reward, the single hint EVENT:MERRY and
    the length 10; the loops had recorded KEYWORD:MERR, which the rewrite
    replaced in place. *)
Theorem merristmas_result now :
  normalizeCode now (JsStr (js "Merristmas")) None
  = Normal (NormalizeResult.mk (js "MERRISTMAS") (js "Merristmas") true
              (js "event_reward") [js "EVENT:MERRY"] (js "unknown") 10 now None)
  /\ scan_hints
       (scanPatterns (js "KEYWORD:") (js "MERRISTMAS") (keywordEntries None)
          (scanPatterns (js "PREFIX:") (js "MERRISTMAS") (prefixEntries None)
             (mkScan [] (js "unknown") false)))
     = [js "KEYWORD:MERR"]
  /\ rewriteMerr [js "KEYWORD:MERR"] = [js "EVENT:MERRY"].
Proof. repeat split; vm_compute; reflexivity. Qed.

(** ** Conversion to text *)

Lemma ToString_single e : ToString (JsArray [e]) = elementText e.
Proof. reflexivity. Qed.

Lemma ToString_cons e e' rest :
  ToString (JsArray (e :: e' :: rest))
  = (a ← elementText e; b ← ToString (JsArray (e' :: rest)); mret (a ++ js "," ++ b)).
Proof. reflexivity. Qed.

Lemma JsValue_nested_ind (P : JsValue -> Prop) :
  P JsUndefined -> P JsNull -> (forall b, P (JsBoolean b)) ->
  (forall n, P (JsNum n)) -> (forall s, P (JsStr s)) ->
  (forall elems, Forall P elems -> P (JsArray elems)) ->
  (forall props, P (JsObject props)) ->
  forall v, P v.
Proof.
  intros Hu Hn Hb Hnum Hs Ha Ho. fix IH 1.
  intros [ | | b | n | s | elems | props].
  - exact Hu.
  - exact Hn.
  - apply Hb.
  - apply Hnum.
  - apply Hs.
  - apply Ha. induction elems as [|e l IHl]; constructor; [apply IH | exact IHl].
  - apply Ho.
Qed.

Lemma elementText_returns e : returns (elementText e) <-> returns (ToString e).
Proof.
  destruct e; simpl; try reflexivity; split; intros _; eexists; reflexivity.
Qed.

Lemma ToString_array_returns elems :
  returns (ToString (JsArray elems)) <-> Forall (fun e => returns (ToString e)) elems.
Proof.
  induction elems as [|e rest IH].
  - split; [constructor | intros _; eexists; reflexivity].
  - destruct rest as [|e' rest].
    + rewrite ToString_single, elementText_returns. split.
      * intros H; constructor; [exact H | constructor].
      * intros H; inversion H; assumption.
    + rewrite ToString_cons. rewrite Forall_cons, <- IH, <- elementText_returns.
      generalize (ToString (JsArray (e' :: rest))) as tail.
      generalize (elementText e) as head.
      intros [a|err] [b|err']; simpl; split.
      all: try (intros [x H]; discriminate).
      all: try (intros [[x H] [y H']]; discriminate).
      * intros _; split; eexists; reflexivity.
      * intros _; eexists; reflexivity.
Qed.

(** [String(v)] returns exactly on the convertible values. *)
Lemma ToString_returns v : returns (ToString v) <-> convertible v = true.
Proof.
  induction v as [ | | b | n | s | elems IH | props] using JsValue_nested_ind.
  1-5: (split; [reflexivity | intros _; try destruct b; eexists; reflexivity]).
  - rewrite ToString_array_returns. simpl. rewrite forallb_forall, List.Forall_forall.
    rewrite List.Forall_forall in IH.
    split; intros H e He; apply IH; auto.
  - simpl. destruct (hasOwnProperty (js "toString") props); simpl.
    + split; [intros [x H]; discriminate | discriminate].
    + split; [reflexivity | intros _; eexists; reflexivity].
Qed.

Lemma isPrimitive_convertible v : isPrimitive v = true -> convertible v = true.
Proof. destruct v; simpl; congruence. Qed.

Lemma falsy_isPrimitive v : ToBoolean v = false -> isPrimitive v = true.
Proof. destruct v; simpl; congruence. Qed.

Lemma not_isObjectInput_isPrimitive input :
  isObjectInput input = false -> isPrimitive input = true.
Proof. destruct input; simpl; try reflexivity; discriminate. Qed.

Lemma convertible_or_else v :
  convertible (or_else v (JsStr [])) = convertible v.
Proof.
  unfold or_else. destruct (ToBoolean v) eqn:E; [reflexivity|].
  symmetry. apply isPrimitive_convertible, falsy_isPrimitive, E.
Qed.

Lemma rawCodeOf_codeValue input :
  rawCodeOf input = ToString (or_else (codeValue input) (JsStr [])).
Proof. unfold rawCodeOf, codeValue. destruct (isObjectInput input); reflexivity. Qed.

Lemma rawCodeOf_returns input :
  returns (rawCodeOf input) <-> convertible (codeValue input) = true.
Proof.
  rewrite rawCodeOf_codeValue, ToString_returns, convertible_or_else. reflexivity.
Qed.

Lemma rawCodeOf_falsy input :
  ToBoolean (codeValue input) = false -> rawCodeOf input = Normal [].
Proof.
  intros H. rewrite rawCodeOf_codeValue. unfold or_else. rewrite H. reflexivity.
Qed.

Lemma raw_shape now input config r :
  normalizeCode now input config = Normal r ->
  rawCodeOf input = Normal (NormalizeResult.raw r)
  /\ NormalizeResult.normalized r = normalizeText (NormalizeResult.raw r).
Proof.
  rewrite normalizeCode_unfold.
  destruct (rawCodeOf input) as [rawCode|e]; [|discriminate].
  intros [= <-]. split; reflexivity.
Qed.

Lemma normalizeCode_default_config now input config :
  normalizeCode now input (Some (defaultParameter config NormalizeConfig.empty))
  = normalizeCode now input config.
Proof. destruct config; reflexivity. Qed.

(** ** The batch *)

Lemma mapNormalizeCode_returns clock elems config :
  returns (mapNormalizeCode clock elems config)
  <-> Forall (fun e => convertible (codeValue e) = true) elems.
Proof.
  revert clock; induction elems as [|e rest IH]; intros clock.
  - split; [constructor | intros _; eexists; reflexivity].
  - rewrite Forall_cons, <- (IH (fun i => clock (S i))).
    rewrite <- rawCodeOf_returns, <- (normalizeCode_returns (clock 0%nat) e config).
    cbn [mapNormalizeCode].
    generalize (mapNormalizeCode (fun i => clock (S i)) rest config) as tail.
    generalize (normalizeCode (clock 0%nat) e config) as head.
    intros [a|err] [b|err']; simpl; split.
    all: try (intros [x H]; discriminate).
    all: try (intros [[x H] [y H']]; discriminate).
    + intros _; split; eexists; reflexivity.
    + intros _; eexists; reflexivity.
Qed.

Lemma mapNormalizeCode_each clock elems config results :
  mapNormalizeCode clock elems config = Normal results ->
  List.length results = List.length elems
  /\ forall (i : nat) input, elems !! i = Some input ->
       exists r, results !! i = Some r
                 /\ normalizeCode (clock i) input config = Normal r.
Proof.
  revert clock results; induction elems as [|e rest IH]; intros clock results.
  - intros [= <-]. split; [reflexivity|]. intros i input H. discriminate H.
  - cbn [mapNormalizeCode].
    destruct (normalizeCode (clock 0%nat) e config) as [r|err] eqn:Hr; [|discriminate].
    cbn [mbind Completion_bind].
    destruct (mapNormalizeCode (fun i => clock (S i)) rest config) as [rs|err] eqn:Hrs;
      [|discriminate].
    intros [= <-]. destruct (IH _ _ Hrs) as [Hlen Heach]. split.
    + simpl. rewrite Hlen. reflexivity.
    + intros [|i] input H.
      * injection H as <-. exists r. split; [reflexivity | exact Hr].
      * apply (Heach i input H).
Qed.

Lemma normalizeCodes_array clock elems config :
  normalizeCodes clock (JsArray elems) config = mapNormalizeCode clock elems config.
Proof.
  unfold normalizeCodes. cbn [isArray negb].
  revert clock; induction elems as [|e rest IH]; intros clock; [reflexivity|].
  cbn [mapNormalizeCode]. rewrite normalizeCode_default_config, IH. reflexivity.
Qed.

Lemma normalizeCodes_not_array clock inputs config :
  isArray inputs = false -> normalizeCodes clock inputs config = Normal [].
Proof. unfold normalizeCodes. intros ->. reflexivity. Qed.

(** C4, as the code has it: under a configuration that is missing,
    undefined or a record, on a sequence without holes whose elements all
    have a code that converts to text, the batch returns a sequence of the
    same length whose i-th element is what [normalizeCode] returns on the
    i-th input with the same configuration; on an argument that is no
    sequence it returns the empty sequence. *)
Theorem normalizeCodes_elementwise clock elems config :
  Forall (fun e => convertible (codeValue e) = true) elems ->
  (exists results,
      normalizeCodes clock (JsArray elems) config = Normal results
      /\ List.length results = List.length elems
      /\ forall (i : nat) input, elems !! i = Some input ->
           exists r, results !! i = Some r
                     /\ normalizeCode (clock i) input config = Normal r)
  /\ (forall inputs, isArray inputs = false ->
        normalizeCodes clock inputs config = Normal []).
Proof.
  intros Hconv. split.
  - apply (mapNormalizeCode_returns clock elems config) in Hconv as [results Hres].
    exists results. rewrite normalizeCodes_array. split; [exact Hres|].
    apply (mapNormalizeCode_each _ _ _ _ Hres).
  - intros inputs. apply normalizeCodes_not_array.
Qed.

(** C5, as the code has it, under a configuration that is missing,
    undefined or a record: [normalizeCode] returns exactly when the value
    the code is taken from converts to text, which every primitive does
    (undefined, null, a boolean, a number, a text) and so every input that
    is no record and every record whose code is missing or primitive;
    [normalizeCodes] returns the empty sequence on what is no sequence and
    returns on a sequence without holes exactly when every element is such
    an input; a falsy code (undefined, null, missing) gives the empty
    text. *)
Theorem returns_iff_code_convertible now clock input config :
  (returns (normalizeCode now input config)
   <-> convertible (codeValue input) = true)
  /\ (isObjectInput input = false -> returns (normalizeCode now input config))
  /\ (isPrimitive (Get input (js "code")) = true ->
      returns (normalizeCode now input config))
  /\ (ToBoolean (codeValue input) = false ->
      exists r, normalizeCode now input config = Normal r
                /\ NormalizeResult.raw r = [])
  /\ (forall inputs, isArray inputs = false ->
      normalizeCodes clock inputs config = Normal [])
  /\ (forall elems,
      returns (normalizeCodes clock (JsArray elems) config)
      <-> Forall (fun e => convertible (codeValue e) = true) elems).
Proof.
  assert (returns (normalizeCode now input config)
          <-> convertible (codeValue input) = true) as Hiff
    by (rewrite normalizeCode_returns; apply rawCodeOf_returns).
  split; [exact Hiff|]. split; [|split; [|split; [|split]]].
  - intros H. apply Hiff. unfold codeValue. rewrite H.
    apply isPrimitive_convertible, not_isObjectInput_isPrimitive, H.
  - intros H. apply Hiff. unfold codeValue.
    destruct (isObjectInput input) eqn:E.
    + apply isPrimitive_convertible, H.
    + apply isPrimitive_convertible, not_isObjectInput_isPrimitive, E.
  - intros H.
    assert (returns (normalizeCode now input config)) as [r Hr]
      by (apply Hiff, isPrimitive_convertible, falsy_isPrimitive, H).
    exists r. split; [exact Hr|].
    destruct (raw_shape _ _ _ _ Hr) as [Hraw _].
    rewrite (rawCodeOf_falsy _ H) in Hraw. congruence.
  - intros inputs. apply normalizeCodes_not_array.
  - intros elems. rewrite normalizeCodes_array. apply mapNormalizeCode_returns.
Qed.

(** ** Raw text and metadata *)

(** C8, as the code has it: for an input that is no record the raw text is
    the text of the input when the input is truthy, and the empty text for
    every falsy input: undefined, null, false, the zeros, NaN and the empty
    text. *)
Theorem raw_of_plain_input now input config :
  isObjectInput input = false ->
  exists r,
    normalizeCode now input config = Normal r
    /\ Normal (NormalizeResult.raw r)
       = (if ToBoolean input then ToString input else Normal []).
Proof.
  intros H.
  assert (returns (normalizeCode now input config)) as [r Hr].
  { apply normalizeCode_returns, rawCodeOf_returns. unfold codeValue. rewrite H.
    apply isPrimitive_convertible, not_isObjectInput_isPrimitive, H. }
  exists r. split; [exact Hr|].
  destruct (raw_shape _ _ _ _ Hr) as [Hraw _]. rewrite <- Hraw.
  unfold rawCodeOf, or_else. rewrite H.
  destruct (ToBoolean input); reflexivity.
Qed.

Lemma metaOf_not_record input :
  (forall props, input <> JsObject props) -> metaOf input = JsUndefined.
Proof.
  destruct input; try reflexivity. intros H. exfalso. eapply H. reflexivity.
Qed.

Lemma metaOf_record props :
  metaOf (JsObject props)
  = match lookup_prop (js "meta") props with
    | Some v => v
    | None => JsUndefined
    end.
Proof. reflexivity. Qed.

(** C9: the result has a [meta] field exactly when the input is a record
    that supplies [meta] (with a value other than undefined), and the field
    then holds the supplied value as it is; otherwise the result has no
    [meta] field. *)
Theorem meta_mirrors_input now input config r :
  normalizeCode now input config = Normal r ->
  (forall m, NormalizeResult.meta r = Some m
             <-> exists props, input = JsObject props
                               /\ lookup_prop (js "meta") props = Some m
                               /\ m <> JsUndefined)
  /\ (NormalizeResult.meta r = None
      <-> ~ exists props m, input = JsObject props
                            /\ lookup_prop (js "meta") props = Some m
                            /\ m <> JsUndefined).
Proof.
  rewrite normalizeCode_unfold.
  destruct (rawCodeOf input) as [rawCode|e]; [|discriminate].
  intros [= <-]. cbn [NormalizeResult.meta].
  assert (forall m,
    (if negb (isUndefined (metaOf input)) then Some (metaOf input) else None) = Some m
    <-> exists props, input = JsObject props
                      /\ lookup_prop (js "meta") props = Some m
                      /\ m <> JsUndefined) as Hsome.
  { intros m. destruct input as [ | | b | n | s | elems | props].
    1-6: (rewrite metaOf_not_record by discriminate; cbn [isUndefined negb];
          split; [discriminate | intros (props' & E & _); discriminate]).
    rewrite metaOf_record.
    destruct (lookup_prop (js "meta") props) as [v|] eqn:E.
    - destruct v; cbn [isUndefined negb]; split.
      all: try (intros [= <-]; exists props; repeat split; congruence).
      all: try (intros (props' & [= <-] & E' & Hm); congruence).
      all: try discriminate.
    - cbn [isUndefined negb]. split; [discriminate|].
      intros (props' & [= <-] & E' & _). congruence. }
  split; [exact Hsome|].
  destruct (if negb (isUndefined (metaOf input)) then Some (metaOf input) else None)
    as [m|] eqn:E.
  - split; [discriminate|]. intros Hno. exfalso. apply Hno.
    destruct (proj1 (Hsome m) eq_refl) as (props & Hp). exists props, m. exact Hp.
  - split; [|reflexivity]. intros _ (props & m & Hp).
    assert (None = Some m) as C by (apply Hsome; exists props; exact Hp).
    discriminate C.
Qed.

(** ** The normalization of a text *)

Lemma isSeparator_isWhiteSpace c : isSeparator c = false -> isWhiteSpace c = false.
Proof. unfold isSeparator. intros H. apply orb_false_iff in H. tauto. Qed.

Lemma dropWhile_head p s :
  match s with [] => True | c :: _ => p c = false end -> dropWhile p s = s.
Proof. destruct s as [|c s]; simpl; [reflexivity|]. intros ->. reflexivity. Qed.

Lemma dropWhile_free p s :
  Forall (fun c => p c = false) s -> dropWhile p s = s.
Proof.
  intros H. apply dropWhile_head. destruct H; [exact I | assumption].
Qed.

(** A text with no white space is left as it is by [trim]. *)
Lemma trim_free s :
  Forall (fun c => isWhiteSpace c = false) s -> trim s = s.
Proof.
  intros H. unfold trim, trimStart, trimEnd.
  rewrite (dropWhile_free _ s H).
  rewrite dropWhile_free; [apply rev_involutive|].
  apply List.Forall_rev, H.
Qed.

Lemma removeSeparators_free s :
  Forall (fun c => isSeparator c = false) (removeSeparators s).
Proof.
  unfold removeSeparators. apply List.Forall_forall. intros c Hc.
  apply filter_In in Hc as [_ Hc]. apply negb_true_iff, Hc.
Qed.

Lemma removeSeparators_id s :
  Forall (fun c => isSeparator c = false) s -> removeSeparators s = s.
Proof.
  unfold removeSeparators. induction 1 as [|c s Hc _ IH]; simpl; [reflexivity|].
  rewrite Hc. simpl. rewrite IH. reflexivity.
Qed.

(** A text without separator that upper-casing leaves alone is a fixed
    point of the pipeline. *)
Lemma normalizeText_fixed n :
  Forall (fun c => isSeparator c = false) n ->
  toUpperCase n = n ->
  normalizeText n = n.
Proof.
  intros Hfree Hup. unfold normalizeText.
  rewrite trim_free.
  - rewrite removeSeparators_id by exact Hfree. exact Hup.
  - eapply List.Forall_impl; [|exact Hfree]. apply isSeparator_isWhiteSpace.
Qed.

Lemma rawCodeOf_text x : rawCodeOf (JsStr x) = Normal x.
Proof. destruct x; reflexivity. Qed.

Lemma normalizeCode_text now x config :
  exists r, normalizeCode now (JsStr x) config = Normal r
            /\ NormalizeResult.normalized r = normalizeText x.
Proof.
  rewrite normalizeCode_unfold, rawCodeOf_text. eexists. split; reflexivity.
Qed.

(** *** ASCII text: the case mapping is the one written out above *)

Lemma upper_range_no_separator c : 65 <= c <= 90 -> isSeparator c = false.
Proof.
  intros H. unfold isSeparator, isWhiteSpace, HYPHEN.
  repeat (apply orb_false_iff; split);
    try (apply N.eqb_neq; lia);
    apply andb_false_iff; (left; apply N.leb_gt; lia) || (right; apply N.leb_gt; lia).
Qed.

Lemma asciiUpper_cases c :
  (97 <= c <= 122 /\ asciiUpper c = c - 32) \/ (~ 97 <= c <= 122 /\ asciiUpper c = c).
Proof.
  unfold asciiUpper.
  destruct (N.leb_spec 97 c), (N.leb_spec c 122); simpl; [left | right ..]; split;
    try reflexivity; lia.
Qed.

Lemma asciiUpper_idem c : asciiUpper (asciiUpper c) = asciiUpper c.
Proof.
  destruct (asciiUpper_cases c) as [[H ->]|[H ->]].
  - destruct (asciiUpper_cases (c - 32)) as [[H' _]|[_ ->]]; [lia | reflexivity].
  - destruct (asciiUpper_cases c) as [[H' _]|[_ ->]]; [lia | reflexivity].
Qed.

Lemma asciiUpper_isAscii c : isAscii c = true -> isAscii (asciiUpper c) = true.
Proof.
  unfold isAscii. rewrite !N.ltb_lt.
  destruct (asciiUpper_cases c) as [[H ->]|[H ->]]; lia.
Qed.

Lemma asciiUpper_separator c :
  isSeparator c = false -> isSeparator (asciiUpper c) = false.
Proof.
  destruct (asciiUpper_cases c) as [[H ->]|[H ->]]; [|tauto].
  intros _. apply upper_range_no_separator. lia.
Qed.

Lemma map_asciiUpper_isAscii s :
  forallb isAscii s = true -> forallb isAscii (List.map asciiUpper s) = true.
Proof.
  induction s as [|c s IH]; simpl; [reflexivity|].
  rewrite !andb_true_iff. intros [Hc Hs]. split; [apply asciiUpper_isAscii, Hc | auto].
Qed.

Lemma toUpperCase_ascii s :
  forallb isAscii s = true -> toUpperCase s = List.map asciiUpper s.
Proof. unfold toUpperCase. intros ->. reflexivity. Qed.

Lemma toUpperCase_ascii_idem s :
  forallb isAscii s = true -> toUpperCase (toUpperCase s) = toUpperCase s.
Proof.
  intros H. rewrite (toUpperCase_ascii s H).
  rewrite toUpperCase_ascii by (apply map_asciiUpper_isAscii, H).
  rewrite List.map_map. apply List.map_ext. apply asciiUpper_idem.
Qed.

Lemma toUpperCase_ascii_separator s :
  forallb isAscii s = true ->
  Forall (fun c => isSeparator c = false) s ->
  Forall (fun c => isSeparator c = false) (toUpperCase s).
Proof.
  intros H Hfree. rewrite (toUpperCase_ascii s H).
  induction Hfree as [|c s' Hc _ IH]; simpl; constructor.
  - apply asciiUpper_separator, Hc.
  - apply IH. simpl in H. apply andb_true_iff in H. tauto.
Qed.

Lemma dropWhile_isAscii p s :
  forallb isAscii s = true -> forallb isAscii (dropWhile p s) = true.
Proof.
  induction s as [|c s IH]; simpl; [reflexivity|]. intros H.
  destruct (p c); [|exact H]. apply andb_true_iff in H. tauto.
Qed.

Lemma rev_isAscii s : forallb isAscii (rev s) = forallb isAscii s.
Proof.
  induction s as [|c s IH]; simpl; [reflexivity|].
  rewrite forallb_app, IH. simpl. rewrite andb_true_r. apply andb_comm.
Qed.

Lemma stripped_isAscii s :
  forallb isAscii s = true -> forallb isAscii (removeSeparators (trim s)) = true.
Proof.
  intros H. unfold removeSeparators, trim, trimEnd, trimStart.
  apply forallb_forall. intros c Hc. apply filter_In in Hc as [Hc _].
  assert (forallb isAscii (rev (dropWhile isWhiteSpace (rev (dropWhile isWhiteSpace s))))
          = true) as Hall.
  { rewrite rev_isAscii. apply dropWhile_isAscii. rewrite rev_isAscii.
    apply dropWhile_isAscii, H. }
  rewrite forallb_forall in Hall. apply Hall, Hc.
Qed.

Section CaseMapping.

(** What the pipeline relies on from the case tables of the host, on text
    that is not all ASCII: upper-casing what the host has upper-cased
    changes nothing, and the host brings in no white space and no
    hyphen. *)
Hypothesis host_toUpperCase_stable :
  forall s, forallb isAscii s = false ->
            toUpperCase (host_toUpperCase s) = host_toUpperCase s.
Hypothesis host_toUpperCase_separator_free :
  forall s, forallb isAscii s = false ->
            Forall (fun c => isSeparator c = false) s ->
            Forall (fun c => isSeparator c = false) (host_toUpperCase s).

Lemma toUpperCase_idempotent s :
  toUpperCase (toUpperCase s) = toUpperCase s.
Proof.
  destruct (forallb isAscii s) eqn:E.
  - apply toUpperCase_ascii_idem, E.
  - assert (toUpperCase s = host_toUpperCase s) as ->
      by (unfold toUpperCase; rewrite E; reflexivity).
    apply host_toUpperCase_stable, E.
Qed.

Lemma toUpperCase_separator_free s :
  Forall (fun c => isSeparator c = false) s ->
  Forall (fun c => isSeparator c = false) (toUpperCase s).
Proof.
  intros H. destruct (forallb isAscii s) eqn:E.
  - apply toUpperCase_ascii_separator; assumption.
  - unfold toUpperCase. rewrite E. apply host_toUpperCase_separator_free; assumption.
Qed.

Lemma normalizeText_idempotent x :
  normalizeText (normalizeText x) = normalizeText x.
Proof.
  apply normalizeText_fixed.
  - apply toUpperCase_separator_free, removeSeparators_free.
  - apply toUpperCase_idempotent.
Qed.

(** C6: normalizing the normalized text of a result gives that text
    again. *)
Theorem normalized_is_fixed_point now now' x config config' :
  exists r r',
    normalizeCode now (JsStr x) config = Normal r
    /\ normalizeCode now' (JsStr (NormalizeResult.normalized r)) config' = Normal r'
    /\ NormalizeResult.normalized r' = NormalizeResult.normalized r.
Proof.
  destruct (normalizeCode_text now x config) as (r & Hr & Hn).
  destruct (normalizeCode_text now' (NormalizeResult.normalized r) config')
    as (r' & Hr' & Hn').
  exists r, r'. split; [exact Hr|]. split; [exact Hr'|].
  rewrite Hn', Hn. apply normalizeText_idempotent.
Qed.

End CaseMapping.

(** On ASCII text the pipeline is idempotent on every host. *)
Lemma normalizeText_idempotent_ascii x :
  forallb isAscii x = true ->
  normalizeText (normalizeText x) = normalizeText x.
Proof.
  intros H. apply normalizeText_fixed; unfold normalizeText.
  - apply toUpperCase_ascii_separator; [apply stripped_isAscii, H|].
    apply removeSeparators_free.
  - apply toUpperCase_ascii_idem, stripped_isAscii, H.
Qed.

(** ** More on the normalization of a text *)

Lemma filter_dropWhile (p q : N -> bool) s :
  (forall c, q c = true -> p c = false) ->
  List.filter p (dropWhile q s) = List.filter p s.
Proof.
  intros H. induction s as [|c s IH]; simpl; [reflexivity|].
  destruct (q c) eqn:E; [|reflexivity].
  rewrite (H c E). exact IH.
Qed.

Lemma whiteSpace_isSeparator c :
  isWhiteSpace c = true -> negb (isSeparator c) = false.
Proof. unfold isSeparator. intros ->. reflexivity. Qed.

(** Trimming first changes nothing: the removal takes every white space
    anyway. *)
Lemma removeSeparators_trim s : removeSeparators (trim s) = removeSeparators s.
Proof.
  unfold removeSeparators, trim, trimEnd, trimStart.
  rewrite List.filter_rev, filter_dropWhile by apply whiteSpace_isSeparator.
  rewrite List.filter_rev, rev_involutive.
  apply filter_dropWhile, whiteSpace_isSeparator.
Qed.

Lemma same_normalized_same_verdict now now' input input' config r r' :
  normalizeCode now input config = Normal r ->
  normalizeCode now' input' config = Normal r' ->
  NormalizeResult.normalized r = NormalizeResult.normalized r' ->
  verdict r = verdict r'.
Proof.
  rewrite !normalizeCode_unfold.
  destruct (rawCodeOf input) as [rawCode|e]; [|discriminate].
  destruct (rawCodeOf input') as [rawCode'|e]; [|discriminate].
  intros [= <-] [= <-]. unfold verdict. cbn -[normalizeText]. intros ->.
  reflexivity.
Qed.

Lemma normalizeCode_texts now now' x y config :
  normalizeText x = normalizeText y ->
  exists r r',
    normalizeCode now (JsStr x) config = Normal r
    /\ normalizeCode now' (JsStr y) config = Normal r'
    /\ verdict r = verdict r'.
Proof.
  intros H.
  destruct (normalizeCode_text now x config) as (r & Hr & Hn).
  destruct (normalizeCode_text now' y config) as (r' & Hr' & Hn').
  exists r, r'. split; [exact Hr|]. split; [exact Hr'|].
  apply (same_normalized_same_verdict _ _ _ _ _ _ _ Hr Hr'). congruence.
Qed.

(** X1: a white space or a hyphen anywhere in the text of the code is
    ignored: the text with one of them taken out gives the same normalized
    text, validity, label, hints and length. *)
Theorem separator_is_ignored now now' before c after config :
  isSeparator c = true ->
  exists r r',
    normalizeCode now (JsStr (before ++ c :: after)) config = Normal r
    /\ normalizeCode now' (JsStr (before ++ after)) config = Normal r'
    /\ verdict r = verdict r'.
Proof.
  intros Hc. apply normalizeCode_texts. unfold normalizeText.
  rewrite !removeSeparators_trim. unfold removeSeparators.
  rewrite !List.filter_app. simpl. rewrite Hc. reflexivity.
Qed.

Lemma lower_range_no_separator c : 97 <= c <= 122 -> isSeparator c = false.
Proof.
  intros H. unfold isSeparator, isWhiteSpace, HYPHEN.
  repeat (apply orb_false_iff; split);
    try (apply N.eqb_neq; lia);
    apply andb_false_iff; (left; apply N.leb_gt; lia) || (right; apply N.leb_gt; lia).
Qed.

Lemma isSeparator_asciiUpper c : isSeparator (asciiUpper c) = isSeparator c.
Proof.
  destruct (asciiUpper_cases c) as [[H ->]|[H ->]]; [|reflexivity].
  rewrite (lower_range_no_separator c H).
  apply upper_range_no_separator. lia.
Qed.

Lemma removeSeparators_map_asciiUpper s :
  removeSeparators (List.map asciiUpper s)
  = List.map asciiUpper (removeSeparators s).
Proof.
  unfold removeSeparators. induction s as [|c s IH]; simpl; [reflexivity|].
  rewrite isSeparator_asciiUpper. destruct (isSeparator c); simpl; rewrite IH;
    reflexivity.
Qed.

Lemma removeSeparators_isAscii s :
  forallb isAscii s = true -> forallb isAscii (removeSeparators s) = true.
Proof.
  intros H. rewrite <- removeSeparators_trim. apply stripped_isAscii, H.
Qed.

(** X2: the letter case of ASCII text does not matter: the text with its
    small letters a-z turned into capitals gives the same normalized text,
    validity, label, hints and length. *)
Theorem ascii_case_is_ignored now now' x config :
  forallb isAscii x = true ->
  exists r r',
    normalizeCode now (JsStr x) config = Normal r
    /\ normalizeCode now' (JsStr (List.map asciiUpper x)) config = Normal r'
    /\ verdict r = verdict r'.
Proof.
  intros H. apply normalizeCode_texts. unfold normalizeText.
  rewrite !removeSeparators_trim, removeSeparators_map_asciiUpper.
  pose proof (removeSeparators_isAscii x H) as Hs.
  rewrite (toUpperCase_ascii _ Hs).
  rewrite toUpperCase_ascii by (apply map_asciiUpper_isAscii, Hs).
  rewrite List.map_map. apply List.map_ext. intros c.
  symmetry. apply asciiUpper_idem.
Qed.

Lemma dropWhile_length p s : (List.length (dropWhile p s) <= List.length s)%nat.
Proof.
  induction s as [|c s IH]; simpl; [lia|]. destruct (p c); simpl; lia.
Qed.

Lemma filter_length_le (p : N -> bool) s :
  (List.length (List.filter p s) <= List.length s)%nat.
Proof.
  induction s as [|c s IH]; simpl; [lia|]. destruct (p c); simpl; lia.
Qed.

Lemma asciiUpper_not_lower c : isLowerAscii (asciiUpper c) = false.
Proof.
  unfold isLowerAscii.
  destruct (asciiUpper_cases c) as [[H ->]|[H ->]];
    apply andb_false_iff;
    destruct (N.leb_spec 97 c); destruct (N.leb_spec c 122);
    try lia; (left; apply N.leb_gt; lia) || (right; apply N.leb_gt; lia).
Qed.

(** X3: on ASCII text the normalized text is ASCII, holds no white space,
    no hyphen and no small letter a-z, and is not longer than the raw
    text. *)
Theorem ascii_normalized_shape now x config :
  forallb isAscii x = true ->
  exists r,
    normalizeCode now (JsStr x) config = Normal r
    /\ NormalizeResult.raw r = x
    /\ forallb isAscii (NormalizeResult.normalized r) = true
    /\ Forall (fun c => isSeparator c = false) (NormalizeResult.normalized r)
    /\ Forall (fun c => isLowerAscii c = false) (NormalizeResult.normalized r)
    /\ (NormalizeResult.length r <= Z.of_nat (List.length x))%Z.
Proof.
  intros H.
  destruct (normalizeCode_text now x config) as (r & Hr & Hn).
  exists r. split; [exact Hr|].
  destruct (raw_shape _ _ _ _ Hr) as [Hraw _].
  destruct (validity_shape _ _ _ _ Hr) as [Hlen _].
  rewrite rawCodeOf_text in Hraw. injection Hraw as Hraw.
  rewrite Hlen, Hn. unfold normalizeText.
  pose proof (stripped_isAscii x H) as Hs.
  rewrite (toUpperCase_ascii _ Hs).
  split; [symmetry; exact Hraw|]. split; [apply map_asciiUpper_isAscii, Hs|].
  split; [|split].
  - rewrite <- (toUpperCase_ascii _ Hs).
    apply toUpperCase_ascii_separator; [exact Hs | apply removeSeparators_free].
  - apply List.Forall_forall. intros c Hc.
    apply in_map_iff in Hc as (d & <- & _). apply asciiUpper_not_lower.
  - rewrite length_map, removeSeparators_trim. unfold removeSeparators.
    pose proof (filter_length_le (fun c => negb (isSeparator c)) x). lia.
Qed.

Lemma removeSeparators_all s :
  Forall (fun c => isSeparator c = true) s -> removeSeparators s = [].
Proof.
  unfold removeSeparators. induction 1 as [|c s Hc _ IH]; simpl; [reflexivity|].
  rewrite Hc. exact IH.
Qed.

(** X4: a text made of white space and hyphens only (the empty text
    included) normalizes to the empty text, of length 0, which is never a
    valid format, whatever bounds are configured (a minimum of 0 included);
    no hint is given and the label is unknown unless the empty pattern is
    configured. *)
Theorem separators_only_is_invalid now x config :
  Forall (fun c => isSeparator c = true) x ->
  exists r,
    normalizeCode now (JsStr x) config = Normal r
    /\ NormalizeResult.normalized r = []
    /\ NormalizeResult.length r = 0%Z
    /\ NormalizeResult.isValidFormat r = false
    /\ ~ In (js "INVALID:CHAR") (NormalizeResult.hints r)
    /\ ((forall e, In e (prefixEntries config ++ keywordEntries config) ->
                   fst e <> []) ->
        NormalizeResult.probableType r = js "unknown"
        /\ NormalizeResult.hints r = []).
Proof.
  intros H.
  destruct (normalizeCode_text now x config) as (r & Hr & Hn).
  assert (NormalizeResult.normalized r = []) as Hnil.
  { rewrite Hn. unfold normalizeText.
    rewrite removeSeparators_trim, (removeSeparators_all x H). reflexivity. }
  exists r. split; [exact Hr|]. split; [exact Hnil|].
  destruct (validity_shape _ _ _ _ Hr) as [Hlen Hvalid].
  rewrite Hnil in Hlen. simpl in Hlen.
  split; [exact Hlen|]. split; [|split].
  - rewrite Hvalid, Hlen. rewrite andb_false_r. reflexivity.
  - rewrite (hints_shape _ _ _ _ Hr), Hnil. cbn [invalidHint hasInvalidChar existsb app].
    intros Hin. apply in_app_or in Hin as [Hin|Hin];
      apply in_map_iff in Hin as (e & E & _).
    + pose proof (invalid_is_no_prefixHint (fst e)) as C.
      apply JsString_eqb_neq in C. congruence.
    + pose proof (invalid_is_no_keywordHint (fst e)) as C.
      apply JsString_eqb_neq in C. congruence.
  - intros Hpat.
    assert (forall es, (forall e, In e es -> fst e <> []) -> matching [] es = [])
      as Hnone.
    { intros es Hes. unfold matching. induction es as [|e es IH]; simpl; [reflexivity|].
      destruct (fst e) as [|c k] eqn:E.
      - exfalso. apply (Hes e); [left; reflexivity | exact E].
      - simpl. apply IH. intros e' He'. apply Hes. right. exact He'. }
    assert (forall es, (forall e, In e es -> fst e <> []) -> firstMatch [] es = None)
      as Hfirst.
    { intros es Hes. apply firstMatch_None. induction es as [|e es IH]; simpl; [reflexivity|].
      destruct (fst e) as [|c k] eqn:E.
      - exfalso. apply (Hes e); [left; reflexivity | exact E].
      - simpl. apply IH. intros e' He'. apply Hes. right. exact He'. }
    split.
    + rewrite (probableType_shape _ _ _ _ Hr), Hnil.
      rewrite !Hfirst; [reflexivity | |];
        intros e He; apply Hpat, in_or_app; auto.
    + rewrite (hints_shape _ _ _ _ Hr), Hnil.
      rewrite !Hnone; [reflexivity | |];
        intros e He; apply Hpat, in_or_app; auto.
Qed.

(** X14: on ASCII text, with no assumption on the host, normalizing the
    normalized text of a result again gives the same normalized text,
    validity, label, hints and length. *)
Theorem renormalizing_keeps_verdict now now' x config :
  forallb isAscii x = true ->
  exists r r',
    normalizeCode now (JsStr x) config = Normal r
    /\ normalizeCode now' (JsStr (NormalizeResult.normalized r)) config = Normal r'
    /\ verdict r' = verdict r.
Proof.
  intros H.
  destruct (normalizeCode_text now x config) as (r & Hr & Hn).
  destruct (normalizeCode_text now' (NormalizeResult.normalized r) config)
    as (r' & Hr' & Hn').
  exists r, r'. split; [exact Hr|]. split; [exact Hr'|].
  apply (same_normalized_same_verdict _ _ _ _ _ _ _ Hr' Hr).
  rewrite Hn', Hn. apply normalizeText_idempotent_ascii, H.
Qed.

(** ** More on hints and labels *)

Lemma pattern_hints_not_invalid n ps ks :
  ~ In (js "INVALID:CHAR")
      (List.map (fun e : list N * list N => prefixHint (fst e)) (matching n ps)
       ++ List.map (fun e : list N * list N => keywordHint (fst e)) (matching n ks)).
Proof.
  intros Hin. apply in_app_or in Hin as [Hin|Hin];
    apply in_map_iff in Hin as (e & E & _).
  - pose proof (invalid_is_no_prefixHint (fst e)) as C.
    apply JsString_eqb_neq in C. congruence.
  - pose proof (invalid_is_no_keywordHint (fst e)) as C.
    apply JsString_eqb_neq in C. congruence.
Qed.

(** X5: INVALID:CHAR is among the hints exactly when the normalized text
    has a character outside A-Z and 0-9; a result with a valid format never
    has it. *)
Theorem invalid_hint_iff_invalid_char now input config r :
  normalizeCode now input config = Normal r ->
  (In (js "INVALID:CHAR") (NormalizeResult.hints r)
   <-> Exists (fun c => isUpperAlnum c = false) (NormalizeResult.normalized r))
  /\ (NormalizeResult.isValidFormat r = true ->
      ~ In (js "INVALID:CHAR") (NormalizeResult.hints r)).
Proof.
  intros H.
  assert (In (js "INVALID:CHAR") (NormalizeResult.hints r)
          <-> hasInvalidChar (NormalizeResult.normalized r) = true) as Hiff.
  { rewrite (hints_shape _ _ _ _ H). unfold invalidHint.
    destruct (hasInvalidChar (NormalizeResult.normalized r)); split.
    - reflexivity.
    - intros _. left. reflexivity.
    - intros Hin. exfalso. exact (pattern_hints_not_invalid _ _ _ Hin).
    - discriminate. }
  split.
  - rewrite Hiff. apply hasInvalidChar_true.
  - intros Hvalid Hin. apply Hiff in Hin.
    destruct (validity_shape _ _ _ _ H) as [_ Hv]. rewrite Hv, Hin in Hvalid.
    discriminate Hvalid.
Qed.

Lemma firstMatch_none_when n es :
  (forall e, In e es -> ~ occursIn (fst e) n) -> firstMatch n es = None.
Proof.
  intros H. apply firstMatch_None. induction es as [|e es IH]; simpl; [reflexivity|].
  rewrite (proj2 (not_includes_occursIn n (fst e))) by (apply H; left; reflexivity).
  apply IH. intros e' He'. apply H. right. exact He'.
Qed.

Lemma matching_none_when n es :
  (forall e, In e es -> ~ occursIn (fst e) n) -> matching n es = [].
Proof.
  intros H. unfold matching. induction es as [|e es IH]; simpl; [reflexivity|].
  rewrite (proj2 (not_includes_occursIn n (fst e))) by (apply H; left; reflexivity).
  apply IH. intros e' He'. apply H. right. exact He'.
Qed.

(** X6: when no prefix pattern occurs in the normalized text and some
    keyword pattern does, [probableType] is the label of the first keyword,
    in the order the keywords are gone through, that occurs in it. *)
Theorem first_keyword_sets_probableType now input config r :
  normalizeCode now input config = Normal r ->
  (forall p, In p (prefixEntries config) ->
             ~ occursIn (fst p) (NormalizeResult.normalized r)) ->
  (exists k, In k (keywordEntries config)
             /\ occursIn (fst k) (NormalizeResult.normalized r)) ->
  exists before first after,
    keywordEntries config = before ++ first :: after
    /\ occursIn (fst first) (NormalizeResult.normalized r)
    /\ (forall k, In k before -> ~ occursIn (fst k) (NormalizeResult.normalized r))
    /\ NormalizeResult.probableType r = snd first.
Proof.
  intros H Hno (k & Hk & Hocc).
  destruct (firstMatch_exists _ _ _ Hk Hocc) as [first Hfirst].
  destruct (firstMatch_split _ _ _ Hfirst) as (b & a & Hsplit & Hm & Hb).
  exists b, first, a. repeat split; try assumption.
  rewrite (probableType_shape _ _ _ _ H), (firstMatch_none_when _ _ Hno), Hfirst.
  reflexivity.
Qed.

(** X7: when no prefix and no keyword pattern occurs in the normalized
    text, [probableType] is unknown and the hints hold nothing but
    INVALID:CHAR, and that only when a character is invalid. *)
Theorem no_match_is_unknown now input config r :
  normalizeCode now input config = Normal r ->
  (forall e, In e (prefixEntries config ++ keywordEntries config) ->
             ~ occursIn (fst e) (NormalizeResult.normalized r)) ->
  NormalizeResult.probableType r = js "unknown"
  /\ NormalizeResult.hints r
     = (if hasInvalidChar (NormalizeResult.normalized r)
        then [js "INVALID:CHAR"] else []).
Proof.
  intros H Hno.
  assert (forall e, In e (prefixEntries config) ->
                    ~ occursIn (fst e) (NormalizeResult.normalized r)) as Hp
    by (intros e He; apply Hno, in_or_app; auto).
  assert (forall e, In e (keywordEntries config) ->
                    ~ occursIn (fst e) (NormalizeResult.normalized r)) as Hk
    by (intros e He; apply Hno, in_or_app; auto).
  split.
  - rewrite (probableType_shape _ _ _ _ H).
    rewrite (firstMatch_none_when _ _ Hp), (firstMatch_none_when _ _ Hk). reflexivity.
  - rewrite (hints_shape _ _ _ _ H).
    rewrite (matching_none_when _ _ Hp), (matching_none_when _ _ Hk).
    cbn [List.map]. rewrite !app_nil_r. reflexivity.
Qed.

Lemma NoDup_map_on {A B} (f : A -> B) (l : list A) :
  List.NoDup l ->
  (forall x y, In x l -> In y l -> f x = f y -> x = y) ->
  List.NoDup (List.map f l).
Proof.
  induction 1 as [|a l Hin Hnd IH]; intros Hinj; cbn [List.map]; constructor.
  - intros C. apply in_map_iff in C as (b & E & Hb).
    assert (b = a) by (apply Hinj; [right; exact Hb | left; reflexivity | exact E]).
    subst b. contradiction.
  - apply IH. intros x y Hx Hy. apply Hinj; right; assumption.
Qed.

Lemma NoDup_keys_map {B} (g : list N -> B) (es : list (list N * list N)) :
  List.NoDup (List.map fst es) ->
  (forall k k', g k = g k' -> k = k') ->
  List.NoDup (List.map (fun e => g (fst e)) es).
Proof.
  intros Hnd Hinj. rewrite <- (List.map_map fst g).
  apply NoDup_map_on; [exact Hnd|]. intros x y _ _. apply Hinj.
Qed.

Lemma prefixHint_inj k k' : prefixHint k = prefixHint k' -> k = k'.
Proof. unfold prefixHint. apply app_inv_head. Qed.

Lemma keywordHint_inj k k' : keywordHint k = keywordHint k' -> k = k'.
Proof.
  unfold keywordHint.
  destruct (JsString_eqb k (js "MERR")) eqn:E, (JsString_eqb k' (js "MERR")) eqn:E'.
  - apply JsString_eqb_eq in E, E'. congruence.
  - intros C. discriminate C.
  - intros C. discriminate C.
  - apply app_inv_head.
Qed.

Lemma prefixHint_keywordHint k k' : prefixHint k <> keywordHint k'.
Proof.
  unfold prefixHint, keywordHint.
  destruct (JsString_eqb k' (js "MERR")); intros C; discriminate C.
Qed.

(** X8: the hints of a result never hold the same entry twice. *)
Theorem hints_have_no_duplicate now input config r :
  normalizeCode now input config = Normal r ->
  List.NoDup (NormalizeResult.hints r).
Proof.
  intros H. rewrite (hints_shape _ _ _ _ H).
  set (n := NormalizeResult.normalized r).
  assert (List.NoDup (List.map (fun e : list N * list N => prefixHint (fst e))
                        (matching n (prefixEntries config)))) as Hp.
  { apply NoDup_keys_map; [|apply prefixHint_inj].
    apply matching_NoDup, merged_entries_NoDup. }
  assert (List.NoDup (List.map (fun e : list N * list N => keywordHint (fst e))
                        (matching n (keywordEntries config)))) as Hk.
  { apply NoDup_keys_map; [|apply keywordHint_inj].
    apply matching_NoDup, merged_entries_NoDup. }
  apply NoDup_ListNoDup. apply NoDup_app. split; [|split].
  - unfold invalidHint. destruct (hasInvalidChar n).
    + apply NoDup_singleton.
    + apply NoDup_nil_2.
  - intros x Hx Hx'. apply list_elem_of_In in Hx, Hx'.
    unfold invalidHint in Hx. destruct (hasInvalidChar n); [|destruct Hx].
    destruct Hx as [<-|[]]. exact (pattern_hints_not_invalid _ _ _ Hx').
  - apply NoDup_app. split; [apply NoDup_ListNoDup, Hp|].
    split; [|apply NoDup_ListNoDup, Hk].
    intros x Hx Hx'. apply list_elem_of_In in Hx, Hx'.
    apply in_map_iff in Hx as (e & <- & _).
    apply in_map_iff in Hx' as (e' & E & _).
    symmetry in E. exact (prefixHint_keywordHint _ _ E).
Qed.

(** ** The default labels, record inputs and batches *)

Lemma firstMatch_In n es e : firstMatch n es = Some e -> In e es.
Proof.
  intros H. apply firstMatch_split in H as (b & a & -> & _).
  apply in_or_app. right. left. reflexivity.
Qed.

(** X9: under a configuration that names no prefix and no keyword of its
    own, [probableType] is one of unknown, class_reroll, event_reward,
    stat_reset and currency. *)
Theorem default_labels_are_closed now input config r :
  NormalizeConfig.prefixes (defaultParameter config NormalizeConfig.empty) = None ->
  NormalizeConfig.keywords (defaultParameter config NormalizeConfig.empty) = None ->
  normalizeCode now input config = Normal r ->
  In (NormalizeResult.probableType r)
     [ js "unknown"; js "class_reroll"; js "event_reward"; js "stat_reset";
       js "currency" ].
Proof.
  intros Hp Hk H. rewrite (probableType_shape _ _ _ _ H).
  assert (prefixEntries config = DEFAULT_PREFIXES) as ->
    by (unfold prefixEntries; rewrite Hp; reflexivity).
  assert (keywordEntries config = DEFAULT_KEYWORDS) as ->
    by (unfold keywordEntries; rewrite Hk; reflexivity).
  destruct (firstMatch _ DEFAULT_PREFIXES) as [e|] eqn:E.
  - apply firstMatch_In in E. simpl in E. destruct E as [<-|[]].
    right. left. reflexivity.
  - destruct (firstMatch _ DEFAULT_KEYWORDS) as [e|] eqn:E'.
    + apply firstMatch_In in E'. simpl in E'.
      destruct E' as [<-|[<-|[<-|[<-|[<-|[]]]]]]; simpl; auto 6.
    + left. reflexivity.
Qed.

(** X13: a record whose code is a text gives the result of that text given
    alone, with the metadata of the record added: the raw text is the
    code, not the record. *)
Theorem record_agrees_with_its_code now props s config :
  lookup_prop (js "code") props = Some (JsStr s) ->
  exists r r',
    normalizeCode now (JsObject props) config = Normal r
    /\ normalizeCode now (JsStr s) config = Normal r'
    /\ NormalizeResult.raw r = s
    /\ r' = NormalizeResult.mk
              (NormalizeResult.normalized r) (NormalizeResult.raw r)
              (NormalizeResult.isValidFormat r) (NormalizeResult.probableType r)
              (NormalizeResult.hints r) (NormalizeResult.status r)
              (NormalizeResult.length r) (NormalizeResult.createdAt r) None.
Proof.
  intros Hcode.
  assert (rawCodeOf (JsObject props) = Normal s) as Hraw.
  { unfold rawCodeOf.
    change (isObjectInput (JsObject props)) with true. cbn [Get].
    rewrite Hcode. destruct s; reflexivity. }
  rewrite !normalizeCode_unfold, Hraw, rawCodeOf_text.
  eexists. eexists. split; [reflexivity|]. split; [reflexivity|].
  split; reflexivity.
Qed.

Lemma mapNormalizeCode_app clock a b config :
  mapNormalizeCode clock (a ++ b) config
  = (ra ← mapNormalizeCode clock a config;
     rb ← mapNormalizeCode (fun i => clock (List.length a + i)%nat) b config;
     mret (ra ++ rb)).
Proof.
  revert clock; induction a as [|x a IH]; intros clock.
  - cbn [app mapNormalizeCode List.length]. cbn.
    destruct (mapNormalizeCode _ b config); reflexivity.
  - cbn [app mapNormalizeCode]. rewrite IH.
    destruct (normalizeCode (clock 0%nat) x config) as [r|e]; [|reflexivity].
    cbn [mbind Completion_bind].
    destruct (mapNormalizeCode (fun i => clock (S i)) a config) as [ra|e];
      [|reflexivity].
    cbn [mbind Completion_bind List.length].
    destruct (mapNormalizeCode _ b config); reflexivity.
Qed.

(** X15: the batch of two sequences put end to end is the batch of the
    first followed by the batch of the second (taken at the later clock
    readings); it raises when one of the two does, the first one first. *)
Theorem normalizeCodes_app clock a b config :
  normalizeCodes clock (JsArray (a ++ b)) config
  = (ra ← normalizeCodes clock (JsArray a) config;
     rb ← normalizeCodes (fun i => clock (List.length a + i)%nat) (JsArray b) config;
     mret (ra ++ rb)).
Proof. rewrite !normalizeCodes_array. apply mapNormalizeCode_app. Qed.

(** ** Bounds and array inputs *)

Lemma normalized_config_free now now' input config config' r r' :
  normalizeCode now input config = Normal r ->
  normalizeCode now' input config' = Normal r' ->
  NormalizeResult.normalized r' = NormalizeResult.normalized r.
Proof.
  intros H H'.
  destruct (raw_shape _ _ _ _ H) as [Hraw ->].
  destruct (raw_shape _ _ _ _ H') as [Hraw' ->].
  congruence.
Qed.

(** X17: the configuration bears on the validity through its bounds only,
    and widening them keeps a valid format valid: when the format of an
    input is valid under one configuration, it is valid under every
    configuration whose minimum is not above and whose maximum is not
    below, whatever patterns the two configure. *)
Theorem wider_bounds_keep_validity now now' input config config' r r' :
  normalizeCode now input config = Normal r ->
  normalizeCode now' input config' = Normal r' ->
  (minLengthOf config' <= minLengthOf config)%Z ->
  (maxLengthOf config <= maxLengthOf config')%Z ->
  NormalizeResult.isValidFormat r = true ->
  NormalizeResult.isValidFormat r' = true.
Proof.
  intros H H' Hmin Hmax.
  pose proof (normalized_config_free _ _ _ _ _ _ _ H H') as Hn.
  destruct (validity_shape _ _ _ _ H) as [Hlen ->].
  destruct (validity_shape _ _ _ _ H') as [Hlen' ->].
  rewrite Hlen, Hlen', Hn.
  rewrite !andb_true_iff, !Z.leb_le, !Z.ltb_lt. intros [[Hc [? ?]] ?].
  repeat split; [exact Hc | lia | lia | lia].
Qed.

(** X18: an array given as the single input is taken as a record without
    code and without metadata: the raw and the normalized text are empty,
    the format is not valid and the result has no [meta]. *)
Theorem array_input_is_empty_code now elems config :
  exists r,
    normalizeCode now (JsArray elems) config = Normal r
    /\ NormalizeResult.raw r = []
    /\ NormalizeResult.normalized r = []
    /\ NormalizeResult.isValidFormat r = false
    /\ NormalizeResult.meta r = None.
Proof.
  assert (rawCodeOf (JsArray elems) = Normal []) as Hraw by reflexivity.
  assert (metaOf (JsArray elems) = JsUndefined) as Hmeta by reflexivity.
  rewrite normalizeCode_unfold, Hraw, Hmeta.
  eexists. split; [reflexivity|]. cbn.
  rewrite andb_false_r. repeat split; reflexivity.
Qed.

End Host.

(** ** The ASCII-only host satisfies what the pipeline relies on *)

Lemma asciiOnlyHost_stable s :
  forallb isAscii s = false ->
  toUpperCase asciiOnlyHost (asciiOnlyHost s) = asciiOnlyHost s.
Proof. intros E. unfold toUpperCase, asciiOnlyHost. rewrite E. reflexivity. Qed.

Lemma asciiOnlyHost_separator_free s :
  forallb isAscii s = false ->
  Forall (fun c => isSeparator c = false) s ->
  Forall (fun c => isSeparator c = false) (asciiOnlyHost s).
Proof. intros _ H. exact H. Qed.

(** The enumeration of a record puts a key such as 2025 before the keys
    that are no array index, whatever the order they were written in. *)
Example entries_index_keys_first :
  List.map fst
    (Object_entries
       (spread (spread [] (Some DEFAULT_PREFIXES))
          (Some [ (js "XMAS", js "event_reward"); (js "2025", js "new_year") ])))
  = [ js "2025"; js "IKES"; js "XMAS" ].
Proof. vm_compute. reflexivity. Qed.

(** ** The documented scenarios *)

Example scenario_30IKES :
  normalizeCode asciiOnlyHost (fixedClock 0) (JsStr (js " 30IKES ")) None
  = Normal (NormalizeResult.mk (js "30IKES") (js " 30IKES ") true
              (js "class_reroll") [js "PREFIX:IKES"] (js "unknown") 6
              (fixedClock 0) None).
Proof. vm_compute. reflexivity. Qed.

Example scenario_25_IKES :
  normalizeCode asciiOnlyHost (fixedClock 0) (JsStr (js "25-IKES")) None
  = Normal (NormalizeResult.mk (js "25IKES") (js "25-IKES") true
              (js "class_reroll") [js "PREFIX:IKES"] (js "unknown") 6
              (fixedClock 0) None).
Proof. vm_compute. reflexivity. Qed.

Example scenario_bad_code :
  normalizeCode asciiOnlyHost (fixedClock 0) (JsStr (js "bad code!!")) None
  = Normal (NormalizeResult.mk (js "BADCODE!!") (js "bad code!!") false
              (js "unknown") [js "INVALID:CHAR"] (js "unknown") 9
              (fixedClock 0) None).
Proof. vm_compute. reflexivity. Qed.

Example scenario_stat_reset :
  normalizeCode asciiOnlyHost (fixedClock 0) statReset None
  = Normal (NormalizeResult.mk (js "STATRESET") (js "STAT-RESET") true
              (js "stat_reset") [js "KEYWORD:STAT"] (js "unknown") 9
              (fixedClock 0)
              (Some (JsObject [ (js "source", JsStr (js "discord")) ]))).
Proof. vm_compute. reflexivity. Qed.

Example scenario_custom_bounds :
  normalizeCode asciiOnlyHost (fixedClock 0) (JsStr (js "AB"))
    (Some (NormalizeConfig.mk (Some 2%Z) (Some 20%Z) None None))
  = Normal (NormalizeResult.mk (js "AB") (js "AB") true
              (js "unknown") [] (js "unknown") 2 (fixedClock 0) None).
Proof. vm_compute. reflexivity. Qed.

Example scenario_not_an_array :
  normalizeCodes asciiOnlyHost fixedClock (JsStr (js "not-an-array")) None
  = Normal [].
Proof. reflexivity. Qed.

(** The number 10^21, which prints in exponent form: the sign and the small
    e make the code invalid. *)
Example scenario_large_number :
  normalizeCode asciiOnlyHost (fixedClock 0) (JsNum (NumFinite (js "1e+21"))) None
  = Normal (NormalizeResult.mk (js "1E+21") (js "1e+21") false
              (js "unknown") [js "INVALID:CHAR"] (js "unknown") 5
              (fixedClock 0) None).
Proof. vm_compute. reflexivity. Qed.

(** A custom prefix that is an array index is visited before the default
    prefix, and takes the label. *)
Example scenario_index_prefix :
  exists r,
    normalizeCode asciiOnlyHost (fixedClock 0) (JsStr (js "2025IKES"))
      (Some (NormalizeConfig.mk None None
               (Some [ (js "2025", js "new_year") ]) None))
    = Normal r
    /\ NormalizeResult.probableType r = js "new_year"
    /\ NormalizeResult.hints r = [ js "PREFIX:2025"; js "PREFIX:IKES" ].
Proof. eexists. split; [vm_compute; reflexivity|]. split; reflexivity. Qed.

(** ** The properties on concrete inputs *)

Lemma isValidFormat_iff_and_invalid_hint_once_witness :
  exists r,
    normalizeCode asciiOnlyHost (fixedClock 0) (JsStr (js "bad code!!")) None = Normal r
    /\ (NormalizeResult.isValidFormat r = true
        <-> Forall (fun c => isUpperAlnum c = true) (NormalizeResult.normalized r)
            /\ (minLengthOf None
                <= Z.of_nat (List.length (NormalizeResult.normalized r))
                <= maxLengthOf None)%Z
            /\ (0 < Z.of_nat (List.length (NormalizeResult.normalized r)))%Z)
    /\ (Exists (fun c => isUpperAlnum c = false) (NormalizeResult.normalized r) ->
        occurrences (js "INVALID:CHAR") (NormalizeResult.hints r) = 1%nat).
Proof.
  eexists. split; [vm_compute; reflexivity|].
  apply (isValidFormat_iff_and_invalid_hint_once asciiOnlyHost (fixedClock 0)
           (JsStr (js "bad code!!")) None).
  vm_compute. reflexivity.
Defined.

Lemma first_prefix_sets_probableType_witness :
  exists r,
    normalizeCode asciiOnlyHost (fixedClock 0) (JsStr (js "IKES-STAT")) None = Normal r
    /\ (exists p, In p (prefixEntries None)
                  /\ occursIn (fst p) (NormalizeResult.normalized r))
    /\ (exists before first after,
          prefixEntries None = before ++ first :: after
          /\ occursIn (fst first) (NormalizeResult.normalized r)
          /\ (forall p, In p before -> ~ occursIn (fst p) (NormalizeResult.normalized r))
          /\ NormalizeResult.probableType r = snd first)
    /\ (forall p, In p (prefixEntries None) ->
        occursIn (fst p) (NormalizeResult.normalized r) ->
        In (js "PREFIX:" ++ fst p) (NormalizeResult.hints r))
    /\ (forall k, In k (keywordEntries None) ->
        occursIn (fst k) (NormalizeResult.normalized r) ->
        In (if JsString_eqb (fst k) (js "MERR") then js "EVENT:MERRY"
            else js "KEYWORD:" ++ fst k)
           (NormalizeResult.hints r)).
Proof.
  eexists. split; [vm_compute; reflexivity|].
  assert (exists p, In p (prefixEntries None) /\ occursIn (fst p) (js "IKESSTAT")) as Hex.
  { exists (js "IKES", js "class_reroll"). split.
    - left. vm_compute. reflexivity.
    - exists [], (js "STAT"). vm_compute. reflexivity. }
  split; [exact Hex|].
  destruct (first_prefix_sets_probableType asciiOnlyHost (fixedClock 0)
              (JsStr (js "IKES-STAT")) None _ eq_refl Hex)
    as (Hfirst & _ & Hprefix & Hkeyword).
  split; [exact Hfirst|]. split; [exact Hprefix | exact Hkeyword].
Defined.

Lemma normalizeCodes_elementwise_witness :
  exists results,
    normalizeCodes asciiOnlyHost fixedClock
      (JsArray [ JsStr (js " 30IKES "); JsStr (js "bad code!!"); statReset ]) None
    = Normal results
    /\ List.length results = 3%nat.
Proof.
  destruct (normalizeCodes_elementwise asciiOnlyHost fixedClock
              [ JsStr (js " 30IKES "); JsStr (js "bad code!!"); statReset ] None)
    as [(results & Hres & Hlen & _) _].
  - repeat constructor.
  - exists results. split; [exact Hres | exact Hlen].
Defined.

Lemma normalized_is_fixed_point_witness :
  exists r r',
    normalizeCode asciiOnlyHost (fixedClock 0) (JsStr (js " 25-ikes ")) None = Normal r
    /\ normalizeCode asciiOnlyHost (fixedClock 1)
         (JsStr (NormalizeResult.normalized r)) None = Normal r'
    /\ NormalizeResult.normalized r' = NormalizeResult.normalized r.
Proof.
  exact (normalized_is_fixed_point asciiOnlyHost
           asciiOnlyHost_stable asciiOnlyHost_separator_free
           (fixedClock 0) (fixedClock 1) (js " 25-ikes ") None None).
Defined.

Lemma known_probableType_has_hint_witness :
  exists r,
    normalizeCode asciiOnlyHost (fixedClock 0) (JsStr (js "Merristmas")) None = Normal r
    /\ exists pattern,
         occursIn pattern (NormalizeResult.normalized r)
         /\ ((In (pattern, NormalizeResult.probableType r) (prefixEntries None)
              /\ In (js "PREFIX:" ++ pattern) (NormalizeResult.hints r))
             \/ (In (pattern, NormalizeResult.probableType r) (keywordEntries None)
                 /\ pattern <> js "MERR"
                 /\ In (js "KEYWORD:" ++ pattern) (NormalizeResult.hints r))
             \/ (In (pattern, NormalizeResult.probableType r) (keywordEntries None)
                 /\ pattern = js "MERR"
                 /\ In (js "EVENT:MERRY") (NormalizeResult.hints r))).
Proof.
  eexists. split; [vm_compute; reflexivity|].
  apply (known_probableType_has_hint asciiOnlyHost (fixedClock 0)
           (JsStr (js "Merristmas")) None).
  - vm_compute. reflexivity.
  - vm_compute. discriminate.
Defined.

Lemma raw_of_plain_input_witness :
  exists r,
    normalizeCode asciiOnlyHost (fixedClock 0)
      (JsNum (NumFinite (js "1e+21"))) None = Normal r
    /\ Normal (NormalizeResult.raw r) = Normal (js "1e+21").
Proof.
  apply (raw_of_plain_input asciiOnlyHost (fixedClock 0)
           (JsNum (NumFinite (js "1e+21"))) None).
  vm_compute. reflexivity.
Defined.

Lemma meta_mirrors_input_witness :
  exists r,
    normalizeCode asciiOnlyHost (fixedClock 0) statReset None = Normal r
    /\ (forall m, NormalizeResult.meta r = Some m
                  <-> exists props, statReset = JsObject props
                                    /\ lookup_prop (js "meta") props = Some m
                                    /\ m <> JsUndefined).
Proof.
  eexists. split; [vm_compute; reflexivity|].
  apply (meta_mirrors_input asciiOnlyHost (fixedClock 0) statReset None).
  vm_compute. reflexivity.
Defined.

Lemma hints_order_witness :
  exists r,
    normalizeCode asciiOnlyHost (fixedClock 0) (JsStr (js "ikes_merr-coin")) None
    = Normal r
    /\ NormalizeResult.hints r
       = [ js "INVALID:CHAR"; js "PREFIX:IKES"; js "EVENT:MERRY"; js "KEYWORD:COIN" ].
Proof.
  eexists. split; [vm_compute; reflexivity|].
  etransitivity.
  - apply (hints_order asciiOnlyHost (fixedClock 0) (JsStr (js "ikes_merr-coin")) None).
    vm_compute. reflexivity.
  - vm_compute. reflexivity.
Defined.

(** ** Where the code departs from the specification *)

(** C4 as stated fails: a sequence with an element whose code has no text
    makes the batch raise, so no sequence is returned. *)
Lemma batch_halts_on_unconvertible_code :
  normalizeCodes asciiOnlyHost fixedClock
    (JsArray [ JsStr (js "30IKES"); unconvertibleCode ]) None
  = Throw TypeError
  /\ ~ exists results,
         normalizeCodes asciiOnlyHost fixedClock
           (JsArray [ JsStr (js "30IKES"); unconvertibleCode ]) None
         = Normal results.
Proof.
  split; [vm_compute; reflexivity|]. intros [results H]. vm_compute in H. discriminate H.
Qed.

(** C5 as stated fails: on a record whose code is a record with a
    [toString] entry of its own, [normalizeCode] raises a TypeError. *)
Lemma unconvertible_code_raises :
  normalizeCode asciiOnlyHost (fixedClock 0) unconvertibleCode None = Throw TypeError
  /\ ~ returns (normalizeCode asciiOnlyHost (fixedClock 0) unconvertibleCode None).
Proof.
  split; [vm_compute; reflexivity|]. intros [r H]. vm_compute in H. discriminate H.
Qed.

(** C8 as stated fails: the number 0 and the boolean false have the texts 0
    and false, and give the empty raw text. *)
Lemma raw_of_zero_and_false_is_empty :
  (ToString (JsNum (NumZero false)) = Normal (js "0")
   /\ exists r, normalizeCode asciiOnlyHost (fixedClock 0) (JsNum (NumZero false)) None
                = Normal r
                /\ NormalizeResult.raw r = []
                /\ NormalizeResult.raw r <> js "0")
  /\ (ToString (JsBoolean false) = Normal (js "false")
      /\ exists r, normalizeCode asciiOnlyHost (fixedClock 0) (JsBoolean false) None
                   = Normal r
                   /\ NormalizeResult.raw r = []
                   /\ NormalizeResult.raw r <> js "false").
Proof.
  split; (split; [reflexivity|]); eexists;
    (split; [vm_compute; reflexivity|]); split;
    solve [reflexivity | vm_compute; discriminate].
Qed.

(** ** The merge of the configured patterns with the defaults *)

Lemma CreateDataProperty_In_keys {V} k k' (v : V) props :
  In k (List.map fst (CreateDataProperty k' v props))
  <-> k = k' \/ In k (List.map fst props).
Proof.
  rewrite CreateDataProperty_keys.
  destruct (existsb _ _) eqn:E.
  - split; [tauto|]. intros [->|H]; [|exact H].
    apply existsb_exists in E as (x & Hx & Ex).
    apply JsString_eqb_eq in Ex. subst x. exact Hx.
  - rewrite in_app_iff. simpl. split; intros H; intuition congruence.
Qed.

Lemma fold_CreateDataProperty_keys {V} k (es t : list (list N * V)) :
  In k (List.map fst
          (fold_left (fun t kv => CreateDataProperty (fst kv) (snd kv) t) es t))
  <-> In k (List.map fst t) \/ In k (List.map fst es).
Proof.
  revert t; induction es as [|e es IH]; intros t; simpl.
  - tauto.
  - rewrite IH, CreateDataProperty_In_keys. intuition congruence.
Qed.

Lemma Object_entries_keys {V} k (props : list (list N * V)) :
  In k (List.map fst (Object_entries props)) <-> In k (List.map fst props).
Proof.
  pose proof (Permutation_map fst (Object_entries_perm props)) as P.
  split; apply Permutation_in; [exact P | symmetry; exact P].
Qed.

Lemma spread_keys {V} k (t : list (list N * V)) source :
  In k (List.map fst (spread t source))
  <-> In k (List.map fst t)
      \/ exists props, source = Some props /\ In k (List.map fst props).
Proof.
  destruct source as [props|]; unfold spread.
  - rewrite fold_CreateDataProperty_keys, Object_entries_keys. split.
    + intros [H|H]; [left; exact H | right; exists props; auto].
    + intros [H|(props' & [= <-] & H)]; auto.
  - split; [auto|]. intros [H|(props' & E & _)]; [exact H | discriminate E].
Qed.

Lemma merged_keys {V} k (defaults : list (list N * V)) custom :
  In k (List.map fst (Object_entries (spread (spread [] (Some defaults)) custom)))
  <-> In k (List.map fst defaults)
      \/ exists props, custom = Some props /\ In k (List.map fst props).
Proof.
  rewrite Object_entries_keys, !spread_keys. split.
  - intros [[[]|(d & [= <-] & H)]|H]; auto.
  - intros [H|H]; [left; right; exists defaults; auto | right; exact H].
Qed.

(** X12: the patterns a loop goes through are the default patterns and the
    configured ones, and no other: a configuration adds patterns or gives a
    default pattern another label, it never takes a default pattern away. *)
Theorem merged_patterns_are_defaults_and_custom config k :
  (In k (List.map fst (prefixEntries config))
   <-> In k (List.map fst DEFAULT_PREFIXES)
       \/ exists custom,
            NormalizeConfig.prefixes (defaultParameter config NormalizeConfig.empty)
            = Some custom
            /\ In k (List.map fst custom))
  /\ (In k (List.map fst (keywordEntries config))
      <-> In k (List.map fst DEFAULT_KEYWORDS)
          \/ exists custom,
               NormalizeConfig.keywords (defaultParameter config NormalizeConfig.empty)
               = Some custom
               /\ In k (List.map fst custom)).
Proof. split; apply merged_keys. Qed.

Lemma lookup_prop_None {V} k (props : list (list N * V)) :
  lookup_prop k props = None <-> ~ In k (List.map fst props).
Proof.
  induction props as [|[k' v] props IH]; simpl; [tauto|].
  destruct (JsString_eqb k' k) eqn:E.
  - apply JsString_eqb_eq in E. split; [discriminate | tauto].
  - apply JsString_eqb_neq in E. rewrite IH. tauto.
Qed.

Lemma lookup_prop_In {V} k (v : V) props :
  List.NoDup (List.map fst props) ->
  (lookup_prop k props = Some v <-> In (k, v) props).
Proof.
  induction props as [|[k' v'] props IH]; simpl; intros Hnd.
  - split; [discriminate | tauto].
  - inversion Hnd as [|? ? Hin Hnd']; subst.
    destruct (JsString_eqb k' k) eqn:E.
    + apply JsString_eqb_eq in E. subst k'. split.
      * intros [= <-]. left. reflexivity.
      * intros [[= <-]|H]; [reflexivity|].
        exfalso. apply Hin. apply in_map_iff. exists (k, v). auto.
    + apply JsString_eqb_neq in E. rewrite (IH Hnd'). split; [tauto|].
      intros [[= -> _]|H]; [contradiction | exact H].
Qed.

Lemma lookup_prop_perm {V} k (l l' : list (list N * V)) :
  Permutation l l' -> List.NoDup (List.map fst l) ->
  lookup_prop k l = lookup_prop k l'.
Proof.
  intros P Hnd.
  assert (List.NoDup (List.map fst l')) as Hnd'
    by (eapply Permutation_NoDup; [apply Permutation_map, P | exact Hnd]).
  destruct (lookup_prop k l) as [v|] eqn:E.
  - symmetry. apply (lookup_prop_In _ _ _ Hnd').
    apply (Permutation_in _ P). apply (lookup_prop_In _ _ _ Hnd). exact E.
  - symmetry. apply lookup_prop_None. apply lookup_prop_None in E.
    intros C. apply E. revert C. apply Permutation_in, Permutation_map.
    symmetry. exact P.
Qed.

Lemma lookup_CreateDataProperty {V} k k' (v : V) props :
  lookup_prop k (CreateDataProperty k' v props)
  = if JsString_eqb k' k then Some v else lookup_prop k props.
Proof.
  induction props as [|[k'' v''] props IH]; simpl.
  - reflexivity.
  - destruct (JsString_eqb k'' k') eqn:E; simpl.
    + apply JsString_eqb_eq in E. subst k''.
      destruct (JsString_eqb k' k); reflexivity.
    + destruct (JsString_eqb k'' k) eqn:E'; [|exact IH].
      apply JsString_eqb_eq in E'. subst k''.
      assert (JsString_eqb k' k = false) as ->; [|reflexivity].
      apply JsString_eqb_neq. apply JsString_eqb_neq in E. congruence.
Qed.

Lemma lookup_fold_CreateDataProperty {V} k (es t : list (list N * V)) :
  List.NoDup (List.map fst es) ->
  lookup_prop k
    (fold_left (fun t kv => CreateDataProperty (fst kv) (snd kv) t) es t)
  = match lookup_prop k es with
    | Some v => Some v
    | None => lookup_prop k t
    end.
Proof.
  revert t; induction es as [|[k' v'] es IH]; intros t Hnd; simpl; [reflexivity|].
  inversion Hnd as [|? ? Hin Hnd']; subst.
  rewrite (IH _ Hnd'), lookup_CreateDataProperty. cbn [fst snd].
  destruct (JsString_eqb k' k) eqn:E; [|reflexivity].
  apply JsString_eqb_eq in E. subst k'.
  rewrite (proj2 (lookup_prop_None k es) Hin). reflexivity.
Qed.

Lemma Object_entries_NoDup {V} (props : list (list N * V)) :
  List.NoDup (List.map fst props) ->
  List.NoDup (List.map fst (Object_entries props)).
Proof.
  intros H. eapply Permutation_NoDup; [|exact H].
  apply Permutation_map. symmetry. apply Object_entries_perm.
Qed.

Lemma lookup_Object_entries {V} k (props : list (list N * V)) :
  List.NoDup (List.map fst props) ->
  lookup_prop k (Object_entries props) = lookup_prop k props.
Proof.
  intros H. apply lookup_prop_perm.
  - apply Object_entries_perm.
  - apply Object_entries_NoDup, H.
Qed.

Lemma lookup_spread {V} k (t : list (list N * V)) props :
  List.NoDup (List.map fst props) ->
  lookup_prop k (spread t (Some props))
  = match lookup_prop k props with
    | Some v => Some v
    | None => lookup_prop k t
    end.
Proof.
  intros H. unfold spread.
  rewrite lookup_fold_CreateDataProperty by (apply Object_entries_NoDup, H).
  rewrite (lookup_Object_entries _ _ H). reflexivity.
Qed.

Lemma lookup_merged k (defaults : list (list N * list N)) custom :
  List.NoDup (List.map fst defaults) ->
  (forall props, custom = Some props -> List.NoDup (List.map fst props)) ->
  lookup_prop k (Object_entries (spread (spread [] (Some defaults)) custom))
  = match customLabel custom k with
    | Some label => Some label
    | None => lookup_prop k defaults
    end.
Proof.
  intros Hd Hc.
  rewrite lookup_Object_entries by (apply spread_NoDup, spread_NoDup; constructor).
  assert (lookup_prop k (spread [] (Some defaults)) = lookup_prop k defaults) as Hdef.
  { rewrite (lookup_spread _ _ _ Hd). simpl. destruct (lookup_prop k defaults); reflexivity. }
  destruct custom as [props|]; cbn [customLabel].
  - rewrite (lookup_spread _ _ _ (Hc props eq_refl)), Hdef. reflexivity.
  - exact Hdef.
Qed.

Lemma DEFAULT_PREFIXES_NoDup : List.NoDup (List.map fst DEFAULT_PREFIXES).
Proof. repeat constructor; simpl; intuition discriminate. Qed.

Lemma DEFAULT_KEYWORDS_NoDup : List.NoDup (List.map fst DEFAULT_KEYWORDS).
Proof. repeat constructor; simpl; intuition discriminate. Qed.

(** X10: in the merged patterns a pattern has the label the configuration
    gives it, and the default label when the configuration does not name
    it: the same key replaces the default, every other default is kept. *)
Theorem merged_label_lookup config k :
  (forall props,
      NormalizeConfig.prefixes (defaultParameter config NormalizeConfig.empty)
      = Some props -> List.NoDup (List.map fst props)) ->
  (forall props,
      NormalizeConfig.keywords (defaultParameter config NormalizeConfig.empty)
      = Some props -> List.NoDup (List.map fst props)) ->
  lookup_prop k (prefixEntries config)
  = match customLabel
            (NormalizeConfig.prefixes (defaultParameter config NormalizeConfig.empty)) k
    with
    | Some label => Some label
    | None => lookup_prop k DEFAULT_PREFIXES
    end
  /\ lookup_prop k (keywordEntries config)
     = match customLabel
               (NormalizeConfig.keywords (defaultParameter config NormalizeConfig.empty)) k
       with
       | Some label => Some label
       | None => lookup_prop k DEFAULT_KEYWORDS
       end.
Proof.
  intros Hp Hk. split.
  - apply lookup_merged; [apply DEFAULT_PREFIXES_NoDup | exact Hp].
  - apply lookup_merged; [apply DEFAULT_KEYWORDS_NoDup | exact Hk].
Qed.

(** *** The order of the merged patterns *)

Lemma indexedProps_plain {V} (props : list (list N * V)) :
  (forall e, In e props -> arrayIndex (fst e) = None) ->
  indexedProps props = [].
Proof.
  intros H. unfold indexedProps.
  induction props as [|e props IH]; [reflexivity|].
  cbn [omap list_omap]. rewrite (H e) by (left; reflexivity).
  apply IH. intros e' He'. apply H. right. exact He'.
Qed.

Lemma namedProps_plain {V} (props : list (list N * V)) :
  (forall e, In e props -> arrayIndex (fst e) = None) ->
  namedProps props = props.
Proof.
  intros H. unfold namedProps.
  induction props as [|e props IH]; [reflexivity|].
  cbn [List.filter]. rewrite (H e) by (left; reflexivity).
  f_equal. apply IH. intros e' He'. apply H. right. exact He'.
Qed.

Lemma Object_entries_plain {V} (props : list (list N * V)) :
  (forall e, In e props -> arrayIndex (fst e) = None) ->
  Object_entries props = props.
Proof.
  intros H. unfold Object_entries.
  rewrite (indexedProps_plain _ H), (namedProps_plain _ H). reflexivity.
Qed.

Lemma lookup_prop_Some_key {V} k (v : V) props :
  lookup_prop k props = Some v -> In k (List.map fst props).
Proof.
  induction props as [|[k' v'] props IH]; simpl; [discriminate|].
  destruct (JsString_eqb k' k) eqn:E.
  - apply JsString_eqb_eq in E. auto.
  - auto.
Qed.

Lemma hasOwnProperty_In {V} k (props : list (list N * V)) :
  hasOwnProperty k props = true <-> In k (List.map fst props).
Proof.
  unfold hasOwnProperty. destruct (lookup_prop k props) eqn:E.
  - split; [|reflexivity]. intros _. exact (lookup_prop_Some_key _ _ _ E).
  - apply lookup_prop_None in E. split; [discriminate | tauto].
Qed.

Lemma hasOwnProperty_false {V} k (props : list (list N * V)) :
  hasOwnProperty k props = false <-> ~ In k (List.map fst props).
Proof.
  rewrite <- hasOwnProperty_In. destruct (hasOwnProperty k props); split; congruence.
Qed.

Lemma overrideWith_absent source e :
  ~ In (fst e) (List.map fst source) -> overrideWith source e = e.
Proof.
  intros H. unfold overrideWith.
  rewrite (proj2 (lookup_prop_None _ _) H). destruct e; reflexivity.
Qed.

Lemma map_overrideWith_absent source t :
  (forall e, In e t -> ~ In (fst e) (List.map fst source)) ->
  List.map (overrideWith source) t = t.
Proof.
  intros H. induction t as [|e t IH]; simpl; [reflexivity|].
  rewrite overrideWith_absent by (apply H; left; reflexivity).
  f_equal. apply IH. intros e' He'. apply H. right. exact He'.
Qed.

Lemma CreateDataProperty_new k v (t : list (list N * list N)) :
  ~ In k (List.map fst t) -> CreateDataProperty k v t = t ++ [(k, v)].
Proof.
  induction t as [|[k' v'] t IH]; simpl; intros H; [reflexivity|].
  destruct (JsString_eqb k' k) eqn:E.
  - apply JsString_eqb_eq in E. tauto.
  - rewrite IH by tauto. reflexivity.
Qed.

Lemma CreateDataProperty_old k v (t : list (list N * list N)) :
  List.NoDup (List.map fst t) -> In k (List.map fst t) ->
  CreateDataProperty k v t = List.map (overrideWith [(k, v)]) t.
Proof.
  induction t as [|[k' v'] t IH]; simpl; intros Hnd Hin; [destruct Hin|].
  inversion Hnd as [|? ? Hnot Hnd']; subst.
  destruct (JsString_eqb k' k) eqn:E.
  - apply JsString_eqb_eq in E. subst k'.
    unfold overrideWith at 1. cbn [fst snd lookup_prop].
    rewrite JsString_eqb_refl. f_equal. symmetry.
    apply map_overrideWith_absent. intros e He C.
    simpl in C. destruct C as [C|[]]. apply Hnot. rewrite C.
    apply in_map. exact He.
  - assert (JsString_eqb k k' = false) as E'.
    { apply JsString_eqb_neq. apply JsString_eqb_neq in E. congruence. }
    unfold overrideWith at 1. cbn [fst snd lookup_prop]. rewrite E'.
    f_equal. apply IH; [exact Hnd'|].
    destruct Hin as [Hin|Hin]; [|exact Hin].
    apply JsString_eqb_neq in E. contradiction.
Qed.

Lemma overrideWith_cons k v es e :
  ~ In k (List.map fst es) ->
  overrideWith es (overrideWith [(k, v)] e) = overrideWith ((k, v) :: es) e.
Proof.
  intros Hk. destruct e as [a b]. unfold overrideWith. cbn [fst snd lookup_prop].
  destruct (JsString_eqb k a) eqn:E; [|reflexivity].
  apply JsString_eqb_eq in E. subst a.
  rewrite (proj2 (lookup_prop_None _ _) Hk). reflexivity.
Qed.

(** Defining the entries of [es] one by one on [t]: the entries of [t]
    keep their place and take the labels [es] gives them, the new entries
    of [es] follow in their order. *)
Lemma fold_CreateDataProperty_order (es t : list (list N * list N)) :
  List.NoDup (List.map fst es) -> List.NoDup (List.map fst t) ->
  fold_left (fun t kv => CreateDataProperty (fst kv) (snd kv) t) es t
  = List.map (overrideWith es) t
    ++ List.filter (fun e => negb (hasOwnProperty (fst e) t)) es.
Proof.
  revert t; induction es as [|[k v] es IH]; intros t Hes Ht.
  - simpl. rewrite app_nil_r. symmetry. apply map_overrideWith_absent.
    intros e _ [].
  - inversion Hes as [|? ? Hk Hes']; subst. cbn [fold_left fst snd].
    rewrite (IH _ Hes' (CreateDataProperty_NoDup k v t Ht)).
    assert (List.filter
              (fun e : list N * list N =>
                 negb (hasOwnProperty (fst e) (CreateDataProperty k v t))) es
            = List.filter (fun e => negb (hasOwnProperty (fst e) t)) es) as ->.
    { apply List.filter_ext_in. intros e He. f_equal. unfold hasOwnProperty.
      rewrite lookup_CreateDataProperty.
      destruct (JsString_eqb k (fst e)) eqn:E; [|reflexivity].
      apply JsString_eqb_eq in E. exfalso. apply Hk. rewrite E.
      apply in_map. exact He. }
    cbn [List.filter fst].
    destruct (hasOwnProperty k t) eqn:Hown; cbn [negb].
    + apply hasOwnProperty_In in Hown.
      rewrite (CreateDataProperty_old k v t Ht Hown), List.map_map.
      f_equal. apply List.map_ext. intros e. apply overrideWith_cons, Hk.
    + apply hasOwnProperty_false in Hown.
      rewrite (CreateDataProperty_new k v t Hown), List.map_app. cbn [List.map].
      rewrite (overrideWith_absent es (k, v)) by exact Hk.
      rewrite <- app_assoc. cbn [app]. f_equal.
      apply List.map_ext_in. intros e He. unfold overrideWith. cbn [lookup_prop].
      destruct (JsString_eqb k (fst e)) eqn:E; [|reflexivity].
      apply JsString_eqb_eq in E. exfalso. apply Hown. rewrite E.
      apply in_map. exact He.
Qed.

Lemma merged_order (defaults : list (list N * list N)) custom :
  plainlyKeyed defaults ->
  plainlyKeyed (nullish custom []) ->
  Object_entries (spread (spread [] (Some defaults)) custom)
  = List.map (overrideWith (nullish custom [])) defaults
    ++ List.filter (fun e => negb (hasOwnProperty (fst e) defaults))
         (nullish custom []).
Proof.
  intros [Hd Hdi] [Hc Hci].
  assert (spread [] (Some defaults) = defaults) as ->.
  { unfold spread. rewrite (Object_entries_plain _ Hdi).
    rewrite (fold_CreateDataProperty_order _ _ Hd) by constructor.
    cbn [List.map app]. unfold hasOwnProperty. cbn [lookup_prop negb].
    apply forallb_filter_id. apply forallb_forall. reflexivity. }
  assert (spread defaults custom
          = List.map (overrideWith (nullish custom [])) defaults
            ++ List.filter (fun e => negb (hasOwnProperty (fst e) defaults))
                 (nullish custom [])) as ->.
  { destruct custom as [props|]; cbn [nullish spread] in *.
    - rewrite (Object_entries_plain _ Hci).
      apply (fold_CreateDataProperty_order _ _ Hc Hd).
    - cbn [List.filter]. rewrite app_nil_r. symmetry.
      apply map_overrideWith_absent. intros e _ []. }
  apply Object_entries_plain. intros e He. apply in_app_or in He as [He|He].
  - apply in_map_iff in He as (d & <- & Hd'). apply (Hdi d Hd').
  - apply filter_In in He as [He _]. apply (Hci e He).
Qed.

Lemma DEFAULT_PREFIXES_plain : plainlyKeyed DEFAULT_PREFIXES.
Proof.
  split; [apply DEFAULT_PREFIXES_NoDup|]. intros e He. simpl in He.
  destruct He as [<-|[]]. reflexivity.
Qed.

Lemma DEFAULT_KEYWORDS_plain : plainlyKeyed DEFAULT_KEYWORDS.
Proof.
  split; [apply DEFAULT_KEYWORDS_NoDup|]. intros e He. simpl in He.
  repeat (destruct He as [<-|He]; [reflexivity|]). destruct He.
Qed.

(** X11: when no configured pattern is an array index (and the configured
    keys are distinct), a loop goes through the default patterns first, in
    their order and with the labels the configuration gives them, and then
    through the new configured patterns in the order they were written. *)
Theorem merged_patterns_order config :
  plainlyKeyed
    (nullish (NormalizeConfig.prefixes (defaultParameter config NormalizeConfig.empty)) []) ->
  plainlyKeyed
    (nullish (NormalizeConfig.keywords (defaultParameter config NormalizeConfig.empty)) []) ->
  prefixEntries config
  = List.map
      (overrideWith
         (nullish (NormalizeConfig.prefixes (defaultParameter config NormalizeConfig.empty)) []))
      DEFAULT_PREFIXES
    ++ List.filter (fun e => negb (hasOwnProperty (fst e) DEFAULT_PREFIXES))
         (nullish (NormalizeConfig.prefixes (defaultParameter config NormalizeConfig.empty)) [])
  /\ keywordEntries config
     = List.map
         (overrideWith
            (nullish (NormalizeConfig.keywords (defaultParameter config NormalizeConfig.empty)) []))
         DEFAULT_KEYWORDS
       ++ List.filter (fun e => negb (hasOwnProperty (fst e) DEFAULT_KEYWORDS))
            (nullish (NormalizeConfig.keywords (defaultParameter config NormalizeConfig.empty)) []).
Proof.
  intros Hp Hk. split.
  - apply merged_order; [apply DEFAULT_PREFIXES_plain | exact Hp].
  - apply merged_order; [apply DEFAULT_KEYWORDS_plain | exact Hk].
Qed.

(** ** The MERR keyword *)

Lemma keywordHint_event k : keywordHint k = js "EVENT:MERRY" -> k = js "MERR".
Proof.
  unfold keywordHint. destruct (JsString_eqb k (js "MERR")) eqn:E.
  - intros _. apply JsString_eqb_eq, E.
  - intros C. discriminate C.
Qed.

Lemma keywordHint_never_merr k : keywordHint k <> js "KEYWORD:MERR".
Proof.
  unfold keywordHint. destruct (JsString_eqb k (js "MERR")) eqn:E.
  - intros C. discriminate C.
  - change (js "KEYWORD:MERR") with (js "KEYWORD:" ++ js "MERR").
    intros C. apply app_inv_head in C. apply JsString_eqb_neq in E. contradiction.
Qed.

Lemma MERR_is_a_keyword config :
  exists label, In (js "MERR", label) (keywordEntries config).
Proof.
  assert (In (js "MERR") (List.map fst (keywordEntries config))) as H.
  { unfold keywordEntries. apply merged_keys. left. left. reflexivity. }
  apply in_map_iff in H as ([k label] & E & H). simpl in E. subst k.
  exists label. exact H.
Qed.

(** X16: MERR is a keyword under every configuration; the hints never hold
    KEYWORD:MERR, and they hold EVENT:MERRY exactly when MERR occurs in the
    normalized text. *)
Theorem event_merry_iff_merr_occurs host now input config r :
  normalizeCode host now input config = Normal r ->
  ~ In (js "KEYWORD:MERR") (NormalizeResult.hints r)
  /\ (In (js "EVENT:MERRY") (NormalizeResult.hints r)
      <-> occursIn (js "MERR") (NormalizeResult.normalized r)).
Proof.
  intros H. rewrite (hints_shape _ _ _ _ _ H).
  set (n := NormalizeResult.normalized r). split.
  - intros Hin. apply in_app_or in Hin as [Hin|Hin].
    + unfold invalidHint in Hin. destruct (hasInvalidChar n); [|destruct Hin].
      destruct Hin as [C|[]]. discriminate C.
    + apply in_app_or in Hin as [Hin|Hin];
        apply in_map_iff in Hin as (e & E & _).
      * discriminate E.
      * exact (keywordHint_never_merr _ E).
  - split.
    + intros Hin. apply in_app_or in Hin as [Hin|Hin].
      * unfold invalidHint in Hin. destruct (hasInvalidChar n); [|destruct Hin].
        destruct Hin as [C|[]]. discriminate C.
      * apply in_app_or in Hin as [Hin|Hin];
          apply in_map_iff in Hin as (e & E & He).
        -- discriminate E.
        -- apply keywordHint_event in E. apply In_matching in He as [_ He].
           rewrite E in He. exact He.
    + intros Hocc. destruct (MERR_is_a_keyword config) as [label Hl].
      apply in_or_app; right. apply in_or_app; right.
      apply in_map_iff. exists (js "MERR", label). split; [reflexivity|].
      apply In_matching. split; [exact Hl | exact Hocc].
Qed.

(** ** The further properties on concrete inputs *)

Lemma separator_is_ignored_witness :
  exists r r',
    normalizeCode asciiOnlyHost (fixedClock 0)
      (JsStr (js "25" ++ HYPHEN :: js "IKES")) None = Normal r
    /\ normalizeCode asciiOnlyHost (fixedClock 1)
         (JsStr (js "25" ++ js "IKES")) None = Normal r'
    /\ verdict r = verdict r'.
Proof.
  exact (separator_is_ignored asciiOnlyHost (fixedClock 0) (fixedClock 1)
           (js "25") HYPHEN (js "IKES") None eq_refl).
Defined.

Lemma ascii_case_is_ignored_witness :
  exists r r',
    normalizeCode asciiOnlyHost (fixedClock 0) (JsStr (js "ikes30")) None = Normal r
    /\ normalizeCode asciiOnlyHost (fixedClock 1)
         (JsStr (List.map asciiUpper (js "ikes30"))) None = Normal r'
    /\ verdict r = verdict r'.
Proof.
  exact (ascii_case_is_ignored asciiOnlyHost (fixedClock 0) (fixedClock 1)
           (js "ikes30") None eq_refl).
Defined.

Lemma ascii_normalized_shape_witness :
  exists r,
    normalizeCode asciiOnlyHost (fixedClock 0) (JsStr (js " 30-ikes ")) None = Normal r
    /\ NormalizeResult.raw r = js " 30-ikes "
    /\ forallb isAscii (NormalizeResult.normalized r) = true
    /\ Forall (fun c => isSeparator c = false) (NormalizeResult.normalized r)
    /\ Forall (fun c => isLowerAscii c = false) (NormalizeResult.normalized r)
    /\ (NormalizeResult.length r <= Z.of_nat (List.length (js " 30-ikes ")))%Z.
Proof.
  exact (ascii_normalized_shape asciiOnlyHost (fixedClock 0) (js " 30-ikes ") None
           eq_refl).
Defined.

Lemma separators_only_is_invalid_witness :
  exists r,
    normalizeCode asciiOnlyHost (fixedClock 0) (JsStr (js " - - "))
      (Some (NormalizeConfig.mk (Some 0%Z) None None None)) = Normal r
    /\ NormalizeResult.normalized r = []
    /\ NormalizeResult.length r = 0%Z
    /\ NormalizeResult.isValidFormat r = false.
Proof.
  destruct (separators_only_is_invalid asciiOnlyHost (fixedClock 0) (js " - - ")
              (Some (NormalizeConfig.mk (Some 0%Z) None None None)))
    as (r & Hr & Hn & Hl & Hv & _).
  - repeat constructor.
  - exists r. repeat split; assumption.
Defined.

Lemma invalid_hint_iff_invalid_char_witness :
  exists r,
    normalizeCode asciiOnlyHost (fixedClock 0) (JsStr (js "bad code!!")) None = Normal r
    /\ (In (js "INVALID:CHAR") (NormalizeResult.hints r)
        <-> Exists (fun c => isUpperAlnum c = false) (NormalizeResult.normalized r))
    /\ (NormalizeResult.isValidFormat r = true ->
        ~ In (js "INVALID:CHAR") (NormalizeResult.hints r)).
Proof.
  eexists. split; [vm_compute; reflexivity|].
  apply (invalid_hint_iff_invalid_char asciiOnlyHost (fixedClock 0)
           (JsStr (js "bad code!!")) None).
  vm_compute. reflexivity.
Defined.

Lemma first_keyword_sets_probableType_witness :
  exists r,
    normalizeCode asciiOnlyHost (fixedClock 0) (JsStr (js "coin-stat")) None = Normal r
    /\ exists before first after,
         keywordEntries None = before ++ first :: after
         /\ occursIn (fst first) (NormalizeResult.normalized r)
         /\ (forall k, In k before ->
                       ~ occursIn (fst k) (NormalizeResult.normalized r))
         /\ NormalizeResult.probableType r = snd first.
Proof.
  eexists. split; [vm_compute; reflexivity|].
  apply (first_keyword_sets_probableType asciiOnlyHost (fixedClock 0)
           (JsStr (js "coin-stat")) None).
  - vm_compute. reflexivity.
  - intros p Hp. apply not_includes_occursIn.
    destruct Hp as [<-|[]]. vm_compute. reflexivity.
  - exists (js "STAT", js "stat_reset"). split.
    + right. left. vm_compute. reflexivity.
    + apply includes_occursIn. vm_compute. reflexivity.
Defined.

Lemma no_match_is_unknown_witness :
  exists r,
    normalizeCode asciiOnlyHost (fixedClock 0) (JsStr (js "VALID1234")) None = Normal r
    /\ NormalizeResult.probableType r = js "unknown"
    /\ NormalizeResult.hints r = [].
Proof.
  eexists. split; [vm_compute; reflexivity|].
  apply (no_match_is_unknown asciiOnlyHost (fixedClock 0)
           (JsStr (js "VALID1234")) None).
  - vm_compute. reflexivity.
  - intros e He. apply not_includes_occursIn.
    repeat (destruct He as [<-|He]; [vm_compute; reflexivity|]). destruct He.
Defined.

Lemma hints_have_no_duplicate_witness :
  exists r,
    normalizeCode asciiOnlyHost (fixedClock 0) (JsStr (js "ikes_merr-coin")) None
    = Normal r
    /\ List.NoDup (NormalizeResult.hints r).
Proof.
  eexists. split; [vm_compute; reflexivity|].
  apply (hints_have_no_duplicate asciiOnlyHost (fixedClock 0)
           (JsStr (js "ikes_merr-coin")) None).
  vm_compute. reflexivity.
Defined.

Lemma default_labels_are_closed_witness :
  exists r,
    normalizeCode asciiOnlyHost (fixedClock 0) (JsStr (js "GEMS2025")) None = Normal r
    /\ In (NormalizeResult.probableType r)
          [ js "unknown"; js "class_reroll"; js "event_reward"; js "stat_reset";
            js "currency" ].
Proof.
  eexists. split; [vm_compute; reflexivity|].
  apply (default_labels_are_closed asciiOnlyHost (fixedClock 0)
           (JsStr (js "GEMS2025")) None); [reflexivity | reflexivity |].
  vm_compute. reflexivity.
Defined.

Lemma customPatterns_prefixes_NoDup props :
  NormalizeConfig.prefixes customPatterns = Some props ->
  List.NoDup (List.map fst props).
Proof.
  intros [= <-]. repeat constructor; simpl; intuition discriminate.
Qed.

Lemma customPatterns_keywords_NoDup props :
  NormalizeConfig.keywords customPatterns = Some props ->
  List.NoDup (List.map fst props).
Proof.
  intros [= <-]. repeat constructor; simpl; intuition discriminate.
Qed.

Lemma merged_label_lookup_witness :
  lookup_prop (js "IKES") (prefixEntries (Some customPatterns)) = Some (js "special")
  /\ lookup_prop (js "IKES") (keywordEntries (Some customPatterns)) = None.
Proof.
  destruct (merged_label_lookup (Some customPatterns) (js "IKES")
              customPatterns_prefixes_NoDup customPatterns_keywords_NoDup)
    as [Hp Hk].
  rewrite Hp, Hk. split; reflexivity.
Defined.

Lemma customPatterns_prefixes_plain :
  plainlyKeyed [ (js "IKES", js "special"); (js "XMAS", js "event_reward") ].
Proof.
  split; [apply (customPatterns_prefixes_NoDup _ eq_refl)|].
  intros e He. repeat (destruct He as [<-|He]; [reflexivity|]). destruct He.
Qed.

Lemma customPatterns_keywords_plain : plainlyKeyed [ (js "BONUS", js "currency") ].
Proof.
  split; [apply (customPatterns_keywords_NoDup _ eq_refl)|].
  intros e He. repeat (destruct He as [<-|He]; [reflexivity|]). destruct He.
Qed.

Lemma merged_patterns_order_witness :
  List.map fst (prefixEntries (Some customPatterns)) = [ js "IKES"; js "XMAS" ]
  /\ List.map fst (keywordEntries (Some customPatterns))
     = [ js "MERR"; js "STAT"; js "COIN"; js "GEM"; js "CASH"; js "BONUS" ].
Proof.
  destruct (merged_patterns_order (Some customPatterns)
              customPatterns_prefixes_plain customPatterns_keywords_plain)
    as [Hp Hk].
  rewrite Hp, Hk. split; reflexivity.
Defined.

Lemma record_agrees_with_its_code_witness :
  exists r r',
    normalizeCode asciiOnlyHost (fixedClock 0) statReset None = Normal r
    /\ normalizeCode asciiOnlyHost (fixedClock 0) (JsStr (js "STAT-RESET")) None
       = Normal r'
    /\ NormalizeResult.raw r = js "STAT-RESET"
    /\ r' = NormalizeResult.mk
              (NormalizeResult.normalized r) (NormalizeResult.raw r)
              (NormalizeResult.isValidFormat r) (NormalizeResult.probableType r)
              (NormalizeResult.hints r) (NormalizeResult.status r)
              (NormalizeResult.length r) (NormalizeResult.createdAt r) None.
Proof.
  exact (record_agrees_with_its_code asciiOnlyHost (fixedClock 0)
           [ (js "code", JsStr (js "STAT-RESET"));
             (js "meta", JsObject [ (js "source", JsStr (js "discord")) ]) ]
           (js "STAT-RESET") None eq_refl).
Defined.

Lemma renormalizing_keeps_verdict_witness :
  exists r r',
    normalizeCode asciiOnlyHost (fixedClock 0) (JsStr (js " 25-ikes ")) None = Normal r
    /\ normalizeCode asciiOnlyHost (fixedClock 1)
         (JsStr (NormalizeResult.normalized r)) None = Normal r'
    /\ verdict r' = verdict r.
Proof.
  exact (renormalizing_keeps_verdict asciiOnlyHost (fixedClock 0) (fixedClock 1)
           (js " 25-ikes ") None eq_refl).
Defined.

Lemma event_merry_iff_merr_occurs_witness :
  exists r,
    normalizeCode asciiOnlyHost (fixedClock 0) (JsStr (js "Merristmas"))
      (Some customPatterns) = Normal r
    /\ ~ In (js "KEYWORD:MERR") (NormalizeResult.hints r)
    /\ (In (js "EVENT:MERRY") (NormalizeResult.hints r)
        <-> occursIn (js "MERR") (NormalizeResult.normalized r)).
Proof.
  eexists. split; [vm_compute; reflexivity|].
  apply (event_merry_iff_merr_occurs asciiOnlyHost (fixedClock 0)
           (JsStr (js "Merristmas")) (Some customPatterns)).
  vm_compute. reflexivity.
Defined.

Lemma wider_bounds_keep_validity_witness :
  exists r r',
    normalizeCode asciiOnlyHost (fixedClock 0) (JsStr (js "30IKES")) None = Normal r
    /\ normalizeCode asciiOnlyHost (fixedClock 1) (JsStr (js "30IKES"))
         (Some customPatterns) = Normal r'
    /\ NormalizeResult.isValidFormat r = true
    /\ NormalizeResult.isValidFormat r' = true.
Proof.
  eexists. eexists. split; [vm_compute; reflexivity|].
  split; [vm_compute; reflexivity|]. split; [reflexivity|].
  apply (wider_bounds_keep_validity asciiOnlyHost (fixedClock 0) (fixedClock 1)
           (JsStr (js "30IKES")) None (Some customPatterns) _ _ eq_refl eq_refl).
  - vm_compute. discriminate.
  - vm_compute. discriminate.
  - reflexivity.
Defined.
